(** * Metrics cron job (packages/cron/src/jobs/metrics.js)

    A shallow embedding of the metrics job: the metric query functions,
    the timing wrapper [withTimeLog] and the orchestrator [updateMetrics],
    which hands its tasks to the imported [settle] and reduces the settled
    outcomes into one job result. *)

From Stdlib Require Import List String Ascii ZArith Lia Bool Arith PeanoNat.
From Stdlib Require Import DecimalString DecimalPos DecimalZ.
Import ListNotations.
Open Scope string_scope.
Open Scope list_scope.

Set Implicit Arguments.
Set Warnings "-register-all".

(** String concatenation, as [+] on strings and template literals. *)
Infix "+++" := String.append (at level 60, right associativity).

(** ** JavaScript values *)

Module JS.

(** The values that flow through the job: query parameters, row cells,
    rejection reasons and fulfilment values.  [VNum] carries an
    integer-valued number, [VError msg] is [new Error(msg)]. *)
Inductive value : Type :=
| VUndefined
| VNull
| VBool (b : bool)
| VNum (n : Z)
| VStr (s : string)
| VError (message : string)
| VArray (items : list value)
| VObject (fields : list (string * value)).

(** ToBoolean: [undefined], [null], [false], [0] and the empty string are
    falsy, every object (errors and arrays included) is truthy. *)
Definition truthy (v : value) : bool :=
  match v with
  | VUndefined | VNull => false
  | VBool b => b
  | VNum n => negb (n =? 0)%Z
  | VStr s => negb (s =? "")
  | VError _ | VArray _ | VObject _ => true
  end.

(** [a || b] *)
Definition or_else (a b : value) : value := if truthy a then a else b.

(** [Number.isSafeInteger(n)]: the integers that a JavaScript number
    holds exactly, each of them a number of its own. *)
Definition safe_integer (n : Z) : bool := (Z.abs n <=? 2 ^ 53 - 1)%Z.

(** [String(n)] for an integer-valued number: its decimal digits.  This
    is what JavaScript prints for every safe integer ([safe_integer]);
    beyond them a number is printed from its shortest digits, and from
    10^21 with an exponent (["1e+21"]), so what is said of the digits of
    a number is said of safe integers. *)
Definition number_to_string (n : Z) : string :=
  NilZero.string_of_int (Z.to_int n).

(** A decimal integer in writing: an optional minus sign, then one digit
    or more and nothing else. *)
Definition is_digit (c : ascii) : bool :=
  (48 <=? nat_of_ascii c)%nat && (nat_of_ascii c <=? 57)%nat.

Fixpoint all_digits (s : string) : bool :=
  match s with
  | EmptyString => true
  | String c rest => is_digit c && all_digits rest
  end.

Definition digits_only (s : string) : bool :=
  negb (s =? "") && all_digits s.

Definition decimal_string (s : string) : bool :=
  match s with
  | EmptyString => false
  | String c rest =>
      if Ascii.eqb c "-" then digits_only rest else digits_only s
  end.

(** The integer a decimal string stands for, whatever its length. *)
Definition integer_of (s : string) : option Z :=
  option_map Z.of_int (NilZero.int_of_string s).

(** [String(v)]: a string is returned as it is, an array joins the
    renderings of its items with commas ([null] and [undefined] items
    render empty), a plain object renders as ["[object Object]"]. *)
Fixpoint String_ (v : value) : string :=
  match v with
  | VUndefined => "undefined"
  | VNull => "null"
  | VBool true => "true"
  | VBool false => "false"
  | VNum n => number_to_string n
  | VStr s => s
  | VError message => if message =? "" then "Error" else "Error: " +++ message
  | VArray items =>
      (fix join (l : list value) : string :=
         match l with
         | [] => ""
         | x :: rest =>
             let here := match x with
                         | VUndefined | VNull => ""
                         | _ => String_ x
                         end in
             match rest with
             | [] => here
             | _ :: _ => here +++ "," +++ join rest
             end
         end) items
  | VObject _ => "[object Object]"
  end.

(** [c.toLowerCase()] on one ASCII character. *)
Definition lower_ascii (c : ascii) : ascii :=
  let n := nat_of_ascii c in
  if (65 <=? n)%nat && (n <=? 90)%nat then ascii_of_nat (n + 32) else c.

(** [s.toLowerCase()], on ASCII strings. *)
Fixpoint toLowerCase (s : string) : string :=
  match s with
  | EmptyString => EmptyString
  | String c rest => String (lower_ascii c) (toLowerCase rest)
  end.

(** Property access [o.name] on a plain object given by its fields;
    a missing property reads as [undefined]. *)
Fixpoint get (name : string) (fields : list (string * value)) : value :=
  match fields with
  | [] => VUndefined
  | (k, v) :: rest => if k =? name then v else get name rest
  end.

End JS.
Import JS.

(** ** Asynchronous computations *)

(** The two database clients handed to the job. *)
Inductive handle : Type := RoPg | RwPg.

(** A result row: column name to cell. *)
Definition row : Type := list (string * value).

(** What [client.query(sql, params)] settles to: a result with its [rows]
    array, or a rejection with some reason. *)
Inductive reply : Type :=
| Resolved (rows : list row)
| Failed (reason : value).

(** The body of an async function, as the tree of its effects: it
    returns, throws, awaits a query on one of the clients, reads
    [Date.now()] or writes a line with [log].  A query is the only point
    where the function is suspended. *)
Inductive async (A : Type) : Type :=
| Ret (a : A)
| Throw (e : value)
| Query (h : handle) (sql : string) (params : list value)
        (k : reply -> async A)
| Now (k : Z -> async A)
| Log (line : string) (k : async A).

Arguments Ret {A} a.
Arguments Throw {A} e.
Arguments Query {A} h sql params k.
Arguments Now {A} k.
Arguments Log {A} line k.

Fixpoint bind {A B : Type} (m : async A) (f : A -> async B) : async B :=
  match m with
  | Ret a => f a
  | Throw e => Throw e
  | Query h sql params k => Query h sql params (fun r => bind (k r) f)
  | Now k => Now (fun t => bind (k t) f)
  | Log line k => Log line (bind k f)
  end.

Notation "x <- m ;; k" := (bind m (fun x => k))
  (at level 61, m at next level, right associativity).
Notation "m ;;; k" := (bind m (fun _ => k))
  (at level 61, right associativity).

(** [await client.query(sql, params)], destructured to its rows: a
    rejected query throws its reason at the await. *)
Definition query (h : handle) (sql : string) (params : list value)
  : async (list row) :=
  Query h sql params
        (fun r => match r with
                  | Resolved rows => Ret rows
                  | Failed reason => Throw reason
                  end).

(** [try { return await m } finally { f }]: the finaliser runs on both
    exits and the exit of [m] is kept, unless the finaliser itself
    throws. *)
Fixpoint finally_ {A : Type} (m : async A) (f : async unit) : async A :=
  match m with
  | Ret a => f ;;; Ret a
  | Throw e => f ;;; Throw e
  | Query h sql params k => Query h sql params (fun r => finally_ (k r) f)
  | Now k => Now (fun t => finally_ (k t) f)
  | Log line k => Log line (finally_ k f)
  end.

(** The result object a query resolves to, as a value. *)
Definition result_object (rows : list row) : value :=
  VObject [("rows", VArray (map VObject rows))].

(** ** The metric functions *)

Definition dquote : string := String (ascii_of_nat 34) EmptyString.

Definition COUNT_USERS : string := "SELECT COUNT(*) AS total FROM public.user".

Definition SUM_CONTENT_DAG_SIZE : string :=
  "SELECT SUM(c.dag_size) AS " +++ dquote +++ "total" +++ dquote
  +++ " FROM content c".

Definition COUNT_UPLOADS : string := "SELECT COUNT(*) AS total FROM upload".

Definition COUNT_UPLOADS_PER_TYPE : string :=
  "SELECT COUNT(*) AS total FROM upload WHERE type = $1".

Definition COUNT_PINS : string := "SELECT COUNT(*) AS total FROM pin".

Definition COUNT_PINS_PER_STATUS : string :=
  "SELECT COUNT(*) AS total FROM pin WHERE status = $1".

Definition COUNT_PIN_REQUESTS : string :=
  "SELECT COUNT(*) AS total FROM psa_pin_request".

Definition UPDATE_METRIC : string := "
INSERT INTO metric (name, value, updated_at)
     VALUES ($1, $2, TIMEZONE('utc', NOW()))
ON CONFLICT (name) DO UPDATE
        SET value = $2, updated_at = TIMEZONE('utc', NOW())
".

(** [rows[0].total]; reading past the end of [rows] does not happen, the
    callers test [rows.length] first. *)
Definition total (rows : list row) : value :=
  match rows with
  | [] => VUndefined
  | r :: _ => get "total" r
  end.

(** [!rows.length] *)
Definition no_rows (rows : list row) : bool :=
  match rows with
  | [] => true
  | _ :: _ => false
  end.

(** [if (arg)] on an optional string argument: taken when the argument is
    given and is not the empty string. *)
Definition given (arg : option string) : option string :=
  match arg with
  | Some s => if truthy (VStr s) then Some s else None
  | None => None
  end.

Definition updateUsersCount : async value :=
  rows <- query RoPg COUNT_USERS [] ;;
  if no_rows rows then Throw (VError "no rows returned counting users")
  else
    query RwPg UPDATE_METRIC [VStr "users_total"; total rows] ;;;
    Ret VUndefined.

Definition updateContentRootDagSizeSum : async value :=
  rows <- query RoPg SUM_CONTENT_DAG_SIZE [] ;;
  if no_rows rows then Throw (VError "no rows returned counting users")
  else
    query RwPg UPDATE_METRIC
          [VStr "content_bytes_total"; VStr (String_ (total rows))] ;;;
    Ret VUndefined.

Definition updateUploadsCount (type : option string) : async value :=
  match given type with
  | Some type =>
      rows <- query RoPg COUNT_UPLOADS_PER_TYPE [VStr type] ;;
      if no_rows rows
      then Throw (VError ("no rows returned counting " +++ type +++ " uploads"))
      else
        res <- query RwPg UPDATE_METRIC
                     [VStr ("uploads_" +++ toLowerCase type +++ "_total");
                      total rows] ;;
        Ret (result_object res)
  | None =>
      rows <- query RoPg COUNT_UPLOADS [] ;;
      if no_rows rows then Throw (VError "no rows returned counting uploads")
      else
        res <- query RwPg UPDATE_METRIC [VStr "uploads_total"; total rows] ;;
        Ret (result_object res)
  end.

Definition updatePinsCount (status : option string) : async value :=
  match given status with
  | Some status =>
      rows <- query RoPg COUNT_PINS_PER_STATUS [VStr status] ;;
      if no_rows rows
      then Throw (VError ("no rows returned counting " +++ status +++ " pins"))
      else
        query RwPg UPDATE_METRIC
              [VStr ("pins_" +++ toLowerCase status +++ "_total");
               total rows] ;;;
        Ret tt
  | None => Ret tt
  end ;;;
  rows <- query RoPg COUNT_PINS [] ;;
  if no_rows rows then Throw (VError "no rows returned counting pins")
  else
    query RwPg UPDATE_METRIC [VStr "pins_total"; total rows] ;;;
    Ret VUndefined.

Definition updatePinRequestsCount : async value :=
  rows <- query RoPg COUNT_PIN_REQUESTS [] ;;
  if no_rows rows then Throw (VError "no rows returned counting pin requests")
  else
    query RwPg UPDATE_METRIC [VStr "pin_requests_total"; total rows] ;;;
    Ret VUndefined.

(** [withTimeLog(name, fn)] *)
Definition withTimeLog (name : string) (fn : unit -> async value)
  : async value :=
  Now (fun start =>
    finally_ (fn tt)
      (Now (fun stop =>
         Log (name +++ " took: " +++ number_to_string (stop - start) +++ "ms")
             (Ret tt)))).

Arguments withTimeLog : simpl never.

(** ** Running one function against the databases *)

(** The collaborators of a run: how each client settles a statement, and
    the reading of the [n]-th call of [Date.now()].  A client answers a
    given statement the same way throughout a run. *)
Record world : Type := {
  roPg : string -> list value -> reply;
  rwPg : string -> list value -> reply;
  clock : nat -> Z
}.

Definition answer (w : world) (h : handle) : string -> list value -> reply :=
  match h with
  | RoPg => roPg w
  | RwPg => rwPg w
  end.

(** How a promise settles. *)
Inductive outcome (A : Type) : Type :=
| Fulfilled (v : A)
| Rejected (reason : value).

Arguments Fulfilled {A} v.
Arguments Rejected {A} reason.

(** What a run leaves behind, in order: the statements sent to a client,
    the lines written with [log], the values written with
    [console.error]. *)
Inductive event : Type :=
| Queried (h : handle) (sql : string) (params : list value)
| Logged (line : string)
| ConsoleError (v : value).

Record run (A : Type) : Type := {
  result : outcome A;
  events : list event;
  ticks : nat
}.

Arguments result {A} r.
Arguments events {A} r.
Arguments ticks {A} r.

(** One async function run alone to its end, started when [Date.now()]
    has been read [tick] times. *)
Fixpoint exec {A : Type} (w : world) (m : async A) (tick : nat) : run A :=
  match m with
  | Ret a => {| result := Fulfilled a; events := []; ticks := tick |}
  | Throw e => {| result := Rejected e; events := []; ticks := tick |}
  | Query h sql params k =>
      let r := exec w (k (answer w h sql params)) tick in
      {| result := result r;
         events := Queried h sql params :: events r;
         ticks := ticks r |}
  | Now k => exec w (k (clock w tick)) (S tick)
  | Log line k =>
      let r := exec w k tick in
      {| result := result r;
         events := Logged line :: events r;
         ticks := ticks r |}
  end.

(** The statements a run sent to the write client. *)
Fixpoint writes (evs : list event) : list (string * list value) :=
  match evs with
  | [] => []
  | Queried RwPg sql params :: rest => (sql, params) :: writes rest
  | _ :: rest => writes rest
  end.

(** Does a statement sent to the write client carry [name] as its first
    parameter, the metric's name in [UPDATE_METRIC]? *)
Definition writes_metric (name : string) (w : string * list value) : bool :=
  match snd w with
  | VStr n :: _ => n =? name
  | _ => false
  end.

(** The lines a run wrote with [log]. *)
Fixpoint logged (evs : list event) : list string :=
  match evs with
  | [] => []
  | Logged line :: rest => line :: logged rest
  | _ :: rest => logged rest
  end.

(** ** Promises and the event loop *)

(** The promise of a called async function: suspended at a query, with
    the rest of the body waiting for the reply, or settled. *)
Inductive promise : Type :=
| Pending (h : handle) (sql : string) (params : list value)
          (k : reply -> async value)
| Settled (o : outcome value).

Definition is_pending (p : promise) : bool :=
  match p with
  | Pending _ _ _ _ => true
  | Settled _ => false
  end.

(** A stretch of synchronous execution: where the function stopped, what
    it emitted on the way and the clock readings used up. *)
Record stretch : Type := {
  state : promise;
  emitted : list event;
  after : nat
}.

(** Run a body up to its next suspension: reading the clock and logging
    do not yield, sending a query does. *)
Fixpoint advance (w : world) (m : async value) (tick : nat) : stretch :=
  match m with
  | Ret v => {| state := Settled (Fulfilled v); emitted := []; after := tick |}
  | Throw e => {| state := Settled (Rejected e); emitted := []; after := tick |}
  | Query h sql params k =>
      {| state := Pending h sql params k;
         emitted := [Queried h sql params];
         after := tick |}
  | Now k => advance w (k (clock w tick)) (S tick)
  | Log line k =>
      let s := advance w k tick in
      {| state := state s; emitted := Logged line :: emitted s;
         after := after s |}
  end.

(** *** [settle]

    [settle] is imported from the p-settle package and is not part of the
    source tree; what follows, down to [settle] itself, is its model. *)

(** What an array handed to [settle] can hold: a promise, a function
    that returns one, or any other value. *)
Inductive element : Type :=
| APromise (p : promise)
| AFunction (f : unit -> async value)
| AValue (v : value).

(** One position of the array inside [settle]: a function not called yet,
    or a promise, marked when it occupies a place of the limiter. *)
Inductive slot : Type :=
| Queued (f : unit -> async value)
| Started (limited : bool) (p : promise).

Definition enlist (e : element) : slot :=
  match e with
  | APromise p => Started false p
  | AFunction f => Queued f
  | AValue v => Started false (Settled (Fulfilled v))
  end.

Definition slot_pending (s : slot) : bool :=
  match s with
  | Queued _ => false
  | Started _ p => is_pending p
  end.

Definition slot_active (s : slot) : bool :=
  match s with
  | Started true p => is_pending p
  | _ => false
  end.

(** The number of tasks in flight: called and not yet settled. *)
Definition in_flight (ss : list slot) : nat :=
  List.length (filter slot_pending ss).

(** The limiter's count of running tasks. *)
Definition active (ss : list slot) : nat :=
  List.length (filter slot_active ss).

(** The state of the loop: the array's positions, the clock readings
    used, what has been emitted, and the largest number of tasks seen in
    flight at once. *)
Record machine : Type := {
  slots : list slot;
  clk : nat;
  trace : list event;
  peak : nat
}.

(** Free places of the limiter; [None] is no limit. *)
Definition room (concurrency : option positive) (ss : list slot)
  : option nat :=
  match concurrency with
  | None => None
  | Some c => Some (Pos.to_nat c - active ss)
  end.

Definition has_room (r : option nat) : bool :=
  match r with
  | None => true
  | Some n => negb (n =? 0)%nat
  end.

Definition take_place (r : option nat) : option nat :=
  match r with
  | None => None
  | Some n => Some (pred n)
  end.

(** Call queued functions, first queued first, while the limiter has a
    free place.  A function that settles without suspending gives its
    place back at once. *)
Fixpoint fill (w : world) (r : option nat) (ss : list slot) (tick : nat)
  : list slot * list event * nat :=
  match ss with
  | [] => ([], [], tick)
  | Queued f :: rest =>
      if has_room r then
        let s := advance w (f tt) tick in
        let r' := if is_pending (state s) then take_place r else r in
        let '(rest', evs, tick') := fill w r' rest (after s) in
        (Started true (state s) :: rest', emitted s ++ evs, tick')
      else (ss, [], tick)
  | s :: rest =>
      let '(rest', evs, tick') := fill w r rest tick in
      (s :: rest', evs, tick')
  end.

Definition refill (w : world) (concurrency : option positive) (m : machine)
  : machine :=
  let '(ss, evs, tick) := fill w (room concurrency (slots m)) (slots m) (clk m) in
  {| slots := ss; clk := tick; trace := trace m ++ evs;
     peak := Nat.max (peak m) (in_flight ss) |}.

Fixpoint replace {A : Type} (i : nat) (x : A) (l : list A) : list A :=
  match l, i with
  | [], _ => []
  | _ :: rest, O => x :: rest
  | y :: rest, S j => y :: replace j x rest
  end.

(** The reply to the query of the promise at position [i] arrives: its
    body runs on to the next suspension. *)
Definition deliver (w : world) (i : nat) (m : machine) : machine :=
  match nth_error (slots m) i with
  | Some (Started limited (Pending h sql params k)) =>
      let s := advance w (k (answer w h sql params)) (clk m) in
      {| slots := replace i (Started limited (state s)) (slots m);
         clk := after s;
         trace := trace m ++ emitted s;
         peak := peak m |}
  | _ => m
  end.

(** Positions of the pending promises, counted from [i]. *)
Fixpoint pending_from (i : nat) (ss : list slot) : list nat :=
  match ss with
  | [] => []
  | s :: rest =>
      if slot_pending s then i :: pending_from (S i) rest
      else pending_from (S i) rest
  end.

(** A schedule says, at each turn of the loop, which of the pending
    queries is answered next. *)
Definition schedule : Type := nat -> nat.

Definition chosen (sched : schedule) (turn : nat) (ids : list nat) : nat :=
  nth (sched turn mod List.length ids) ids 0.

(** Turns of the event loop until nothing is pending.  At each turn one
    pending query is answered and the function that awaited it runs,
    without interruption, to its next query or to its end; then the
    limiter calls what it can. *)
Fixpoint loop (fuel : nat) (w : world) (concurrency : option positive)
         (sched : schedule) (turn : nat) (m : machine) : option machine :=
  match pending_from 0 (slots m) with
  | [] => Some m
  | ids =>
      match fuel with
      | O => None
      | S fuel' =>
          loop fuel' w concurrency sched (S turn)
               (refill w concurrency (deliver w (chosen sched turn ids) m))
      end
  end.

(** The outcomes of the settled positions, in array order. *)
Fixpoint outcomes (ss : list slot) : list (outcome value) :=
  match ss with
  | [] => []
  | Started _ (Settled o) :: rest => o :: outcomes rest
  | _ :: rest => outcomes rest
  end.

(** Modelled from the spec: [settle(array, options)], the imported
    p-settle package and the specification's BoundedTaskRunner, whose
    code is not part of the source tree.  It resolves to one outcome per
    element of the array, in the order of the array, once every element
    has settled, and does not reject when an element does.  An element
    that is a promise is watched as it is; an element that is a function
    is a task [settle] calls itself, at most [concurrency] of them being
    in flight at a time and the next queued one being called as soon as
    one settles; any other value counts as fulfilled with that value.
    Without [concurrency] there is no limit. *)
Definition settle (fuel : nat) (w : world) (sched : schedule)
           (array : list element) (concurrency : option positive)
           (tick : nat) : option machine :=
  let ss := map enlist array in
  loop fuel w concurrency sched 0
       (refill w concurrency
               {| slots := ss; clk := tick; trace := [];
                  peak := in_flight ss |}).

(** ** The job *)

(** The constants [updateMetrics] imports from [api/src/constants.js]
    and [lib/utils.js], which are not part of the source tree, taken as
    parameters of the job. *)
Record config : Type := {
  UPLOAD_TYPES : list string;
  PIN_STATUSES : list string;
  MAX_CONCURRENT_QUERIES : positive
}.

(** The metric tasks in the order [updateMetrics] lists them, each with
    the name it is timed under. *)
Definition tasks (cfg : config) : list (string * (unit -> async value)) :=
  [("updateUsersCount", fun _ => updateUsersCount);
   ("updateContentRootDagSizeSum", fun _ => updateContentRootDagSizeSum);
   ("updateUploadsCount", fun _ => updateUploadsCount None)]
  ++ map (fun t => ("updateUploadsCount[" +++ t +++ "]",
                    fun _ => updateUploadsCount (Some t)))
         (UPLOAD_TYPES cfg)
  ++ [("updatePinsCount", fun _ => updatePinsCount None)]
  ++ map (fun s => ("updatePinsCount[" +++ s +++ "]",
                    fun _ => updatePinsCount (Some s)))
         (PIN_STATUSES cfg)
  ++ [("updatePinRequestsCount", fun _ => updatePinRequestsCount)].

(** Evaluating the array literal: every [withTimeLog(name, fn)] in it is
    a call, made in order, and the array holds the promises returned. *)
Fixpoint call_all (w : world) (ts : list (string * (unit -> async value)))
         (tick : nat) : list element * list event * nat :=
  match ts with
  | [] => ([], [], tick)
  | (name, fn) :: rest =>
      let s := advance w (withTimeLog name fn) tick in
      let '(ps, evs, tick') := call_all w rest (after s) in
      (APromise (state s) :: ps, emitted s ++ evs, tick')
  end.

(** [{ concurrency: MAX_CONCURRENT_QUERIES }], the last element of the
    array literal. *)
Definition options (cfg : config) : value :=
  VObject [("concurrency", VNum (Zpos (MAX_CONCURRENT_QUERIES cfg)))].

(** The loop over the settled results, from [error] so far: a
    fulfilled result is skipped; for a rejected one,
    [error = error || promise.reason] and then
    [console.error(promise.reason)]. *)
Fixpoint reduce (results : list (outcome value)) (error : value)
  : value * list event :=
  match results with
  | [] => (error, [])
  | Fulfilled _ :: rest => reduce rest error
  | Rejected reason :: rest =>
      let '(error', evs) := reduce rest (or_else error reason) in
      (error', ConsoleError reason :: evs)
  end.

Definition done : string := "✅ Done".

(** What a run of the job amounts to: the error it throws if any, the
    array and the limit handed to [settle], the results [settle] resolved
    to, what the run emitted, and the largest number of tasks in flight
    at once. *)
Record job : Type := {
  thrown : option value;
  submitted : list element;
  limit : option positive;
  results : list (outcome value);
  output : list event;
  most_in_flight : nat
}.

(** [updateMetrics({ roPg, rwPg })].  The array literal is evaluated
    first, which calls [withTimeLog] for every task; its last element is
    the object [{ concurrency: MAX_CONCURRENT_QUERIES }], and the array is
    the only argument of [settle].  [fuel] bounds the turns of the event
    loop. *)
Definition updateMetrics (fuel : nat) (cfg : config) (w : world)
           (sched : schedule) : option job :=
  let '(promises, evs, tick) := call_all w (tasks cfg) 0 in
  let array := promises ++ [AValue (options cfg)] in
  match settle fuel w sched array None tick with
  | None => None
  | Some m =>
      let results := outcomes (slots m) in
      let '(error, errs) := reduce results VUndefined in
      Some {| thrown := if truthy error then Some error else None;
              submitted := array;
              limit := None;
              results := results;
              output := evs ++ trace m ++ errs
                        ++ (if truthy error then [] else [Logged done]);
              most_in_flight := peak m |}
  end.

(** ** Vocabulary of the proofs *)

(** The reasons of the rejected outcomes, in order. *)
Fixpoint reasons (results : list (outcome value)) : list value :=
  match results with
  | [] => []
  | Fulfilled _ :: rest => reasons rest
  | Rejected reason :: rest => reason :: reasons rest
  end.

(** What is left to run of a promise. *)
Definition remainder (p : promise) : async value :=
  match p with
  | Pending h sql params k => Query h sql params k
  | Settled (Fulfilled v) => Ret v
  | Settled (Rejected e) => Throw e
  end.

(** [settles w n o m]: against the databases of [w], and whatever the
    clock reads, [m] settles to [o] after at most [n] queries. *)
Fixpoint settles {A : Type} (w : world) (n : nat) (o : outcome A)
         (m : async A) : Prop :=
  match m with
  | Ret a => o = Fulfilled a
  | Throw e => o = Rejected e
  | Query h sql params k =>
      match n with
      | O => False
      | S n' => settles w n' o (k (answer w h sql params))
      end
  | Now k => forall t, settles w n o (k t)
  | Log _ k => settles w n o k
  end.

(** A position of the array that holds a promise outside the limiter,
    bound to settle to [snd plan] within [fst plan] queries. *)
Definition tracked (w : world) (plan : nat * outcome value) (s : slot) : Prop :=
  exists p, s = Started false p /\ settles w (fst plan) (snd plan) (remainder p).

(** The bodies [updateMetrics] runs. *)
Definition metric (m : async value) : Prop :=
  m = updateUsersCount
  \/ m = updateContentRootDagSizeSum
  \/ (exists type, m = updateUploadsCount type)
  \/ (exists status, m = updatePinsCount status)
  \/ m = updatePinRequestsCount.

(** The outcome of a task's body run alone. *)
Definition alone (w : world) (task : string * (unit -> async value))
  : outcome value :=
  result (exec w (snd task tt) 0).

(** The queries a metric function makes at most. *)
Definition most_queries : nat := 4.

(** A position inside the limiter: a function still queued, or a promise
    holding one of the limiter's places. *)
Definition limited (s : slot) : Prop :=
  match s with
  | Queued _ => True
  | Started l _ => l = true
  end.

(** The state the limiter keeps: every position is its own, no more
    than [c] of them are running, and no more ever were. *)
Definition bounded (c : positive) (m : machine) : Prop :=
  Forall limited (slots m)
  /\ active (slots m) <= Pos.to_nat c
  /\ peak m <= Pos.to_nat c.

(** ** Sample configurations and databases *)

(** A small database for examples: every count is ["7"], the content
    size is a 30-digit sum, every write succeeds, the clock advances by
    5 ms per reading. *)
Definition big_sum : string := "123456789012345678901234567890".

Definition healthy : world := {|
  roPg := fun sql _ =>
    if sql =? SUM_CONTENT_DAG_SIZE
    then Resolved [[("total", VStr big_sum)]]
    else Resolved [[("total", VStr "7")]];
  rwPg := fun _ _ => Resolved [];
  clock := fun n => (1000 + 5 * Z.of_nat n)%Z
|}.

(** The same database when the driver hands the content size over as a
    number, here the largest safe integer. *)
Definition numeric : world := {|
  roPg := fun sql params =>
    if sql =? SUM_CONTENT_DAG_SIZE
    then Resolved [[("total", VNum 9007199254740991)]]
    else roPg healthy sql params;
  rwPg := rwPg healthy;
  clock := clock healthy
|}.

(** A read database in which every aggregate comes back with no row. *)
Definition barren : world := {|
  roPg := fun _ _ => Resolved [];
  rwPg := fun _ _ => Resolved [];
  clock := fun n => Z.of_nat n
|}.

(** No upload type, no pin status, and a limit of one query at a time. *)
Definition bare : config := {|
  UPLOAD_TYPES := [];
  PIN_STATUSES := [];
  MAX_CONCURRENT_QUERIES := 1
|}.

(** Two upload types, one pin status, a limit of three. *)
Definition typical : config := {|
  UPLOAD_TYPES := ["Car"; "Nft"];
  PIN_STATUSES := ["Pinned"];
  MAX_CONCURRENT_QUERIES := 3
|}.

Fixpoint fault_of (sql : string) (faults : list (string * value))
  : option value :=
  match faults with
  | [] => None
  | (text, reason) :: rest =>
      if text =? sql then Some reason else fault_of sql rest
  end.

(** The healthy database, except that the listed reads are rejected
    with the listed reasons. *)
Definition failing (faults : list (string * value)) : world := {|
  roPg := fun sql params =>
    match fault_of sql faults with
    | Some reason => Failed reason
    | None => roPg healthy sql params
    end;
  rwPg := rwPg healthy;
  clock := clock healthy
|}.

(** At each turn, of the tasks that wait for a reply, the one that comes
    first in the array is answered. *)
Definition in_order : schedule := fun _ => 0.

(** At each turn the waiting task at position 1000 modulo the number of
    waiting tasks is answered: the replies come out of submission
    order. *)
Definition last_first : schedule := fun _ => 1000.

(** ** Proof automation *)

(** Run a metric function symbolically: unfold one layer of the
    interpreter, then use what is known of the replies. *)
Ltac step_metric :=
  cbn [exec bind query answer result events ticks writes no_rows total
       given truthy negb String.eqb app existsb writes_metric snd orb
       roPg rwPg].

Ltac run_metric :=
  repeat (step_metric;
          match goal with
          | H : roPg _ _ _ = _ |- _ => rewrite !H
          | H : rwPg _ _ _ = _ |- _ => rewrite !H
          | H : given _ = _ |- _ => rewrite !H
          end);
  step_metric.

(** ** Further vocabulary: what a run shows of the databases *)

Definition is_fulfilled {A : Type} (o : outcome A) : bool :=
  match o with
  | Fulfilled _ => true
  | Rejected _ => false
  end.

(** A statement that went through: a read that came back with at least
    one row, a write that was not rejected.  Logging always goes
    through. *)
Definition answered (w : world) (ev : event) : bool :=
  match ev with
  | Queried RoPg sql params =>
      match roPg w sql params with
      | Resolved (_ :: _) => true
      | _ => false
      end
  | Queried RwPg sql params =>
      match rwPg w sql params with
      | Resolved _ => true
      | Failed _ => false
      end
  | _ => true
  end.

(** [blamed w e ev]: the error [e] is the one statement [ev] gives rise
    to, the reason of its rejection or an [Error] for a read that came
    back empty. *)
Definition blamed (w : world) (e : value) (ev : event) : Prop :=
  match ev with
  | Queried h sql params =>
      match answer w h sql params with
      | Failed reason => e = reason
      | Resolved [] => h = RoPg /\ exists message, e = VError message
      | Resolved (_ :: _) => False
      end
  | _ => False
  end.

(** The events of a metric function come in pairs: a read, then the
    write of what that read brought back, as it is or through
    [String]. *)
Fixpoint paired (w : world) (evs : list event) : Prop :=
  match evs with
  | [] => True
  | Queried RoPg sql params :: rest =>
      match rest with
      | [] => True
      | Queried RwPg statement [VStr _; v] :: rest' =>
          statement = UPDATE_METRIC
          /\ (exists r rows,
                 roPg w sql params = Resolved (r :: rows)
                 /\ (v = get "total" r \/ v = VStr (String_ (get "total" r))))
          /\ paired w rest'
      | _ => False
      end
  | _ => False
  end.

(** The metric names a function may write. *)
Definition own_names (m : async value) (names : list string) : Prop :=
  forall w tick,
    Forall (fun x => existsb (fun name => writes_metric name x) names = true)
           (writes (events (exec w m tick))).

(** A database whose rows have no [total] column, and one whose sum is
    [NULL]. *)
Definition columnless : world := {|
  roPg := fun _ _ => Resolved [[("count", VStr "7")]];
  rwPg := fun _ _ => Resolved [];
  clock := fun n => Z.of_nat n
|}.

Definition empty_content : world := {|
  roPg := fun _ _ => Resolved [[("total", VNull)]];
  rwPg := fun _ _ => Resolved [];
  clock := fun n => Z.of_nat n
|}.

(** Case analysis on every reply a run depends on. *)
Ltac step_run :=
  cbn [exec bind query answer result events ticks writes no_rows total
       given truthy negb String.eqb app existsb forallb writes_metric snd
       fst orb andb roPg rwPg is_fulfilled answered blamed paired
       List.length].

Ltac by_replies w :=
  repeat (step_run;
          first
            [ match goal with
              | H : roPg w _ _ = _ |- _ => rewrite !H
              | H : rwPg w _ _ = _ |- _ => rewrite !H
              end
            | match goal with
              | |- context [roPg w ?sql ?ps] =>
                  destruct (roPg w sql ps) as [[| ? ?] | ?] eqn:?
              | |- context [rwPg w ?sql ?ps] =>
                  destruct (rwPg w sql ps) as [? | ?] eqn:?
              end ]);
  step_run.

Ltac unfold_metric :=
  unfold updateUsersCount, updateContentRootDagSizeSum, updateUploadsCount,
    updatePinsCount, updatePinRequestsCount.

(** ** Further vocabulary: what a run of the job emits *)

From Stdlib Require Import Permutation.

(** An event without what depends on the clock: the text of a logged
    line. *)
Definition shape (ev : event) : event :=
  match ev with
  | Logged _ => Logged ""
  | _ => ev
  end.

(** [runs w o xs m]: against the databases of [w], and whatever the
    clock reads, [m] settles to [o] and emits, text of the lines aside,
    exactly [xs]. *)
Fixpoint runs {A : Type} (w : world) (o : outcome A) (xs : list event)
         (m : async A) : Prop :=
  match m with
  | Ret a => o = Fulfilled a /\ xs = []
  | Throw e => o = Rejected e /\ xs = []
  | Query h sql params k =>
      match xs with
      | x :: xs' =>
          x = Queried h sql params /\ runs w o xs' (k (answer w h sql params))
      | [] => False
      end
  | Now k => forall t, runs w o xs (k t)
  | Log _ k =>
      match xs with
      | x :: xs' => x = Logged "" /\ runs w o xs' k
      | [] => False
      end
  end.

(** What a promise has still to emit. *)
Definition owes (w : world) (xs : list event) (s : slot) : Prop :=
  exists p o,
    s = Started false p
    /\ match p with
       | Pending h sql params k => runs w o xs (k (answer w h sql params))
       | Settled _ => xs = []
       end.

(** What a task emits when it is run alone under [withTimeLog], text of
    the line aside. *)
Definition script (w : world) (task : string * (unit -> async value))
  : list event :=
  map shape (events (exec w (withTimeLog (fst task) (snd task)) 0)).

Definition is_line (ev : event) : bool :=
  match ev with
  | Logged _ => true
  | _ => false
  end.

Definition is_console_error (ev : event) : bool :=
  match ev with
  | ConsoleError _ => true
  | _ => false
  end.

(** Is the event a write of the metric [name]? *)
Definition writes_name (name : string) (ev : event) : bool :=
  match ev with
  | Queried RwPg sql params => writes_metric name (sql, params)
  | _ => false
  end.

(** The first parameter of every write a run sent: the names of the
    metrics it wrote, in order. *)
Definition written_names (evs : list event) : list value :=
  map (fun x => hd VUndefined (snd x)) (writes evs).

(** A database in working order: every read comes back with a row at
    least, no write is rejected. *)
Definition sound (w : world) : Prop :=
  (forall sql params, exists r rows, roPg w sql params = Resolved (r :: rows))
  /\ (forall sql params, exists rows, rwPg w sql params = Resolved rows).

(** The loop, seen from the tasks: what has been emitted so far, since
    the array literal began to be evaluated, and what the promises have
    still to emit, make up together what the tasks emit alone. *)
Definition interleaves (w : world) (evs target : list event) (m : machine)
  : Prop :=
  exists ledger,
    Forall2 (owes w) ledger (slots m)
    /\ Permutation (map shape (evs ++ trace m) ++ List.concat ledger) target.

(** Case analysis is not needed on a database in working order. *)
Ltac by_sound w Hsound :=
  repeat (step_run;
          first
            [ match goal with
              | H : roPg w _ _ = _ |- _ => rewrite !H
              | H : rwPg w _ _ = _ |- _ => rewrite !H
              end
            | match goal with
              | |- context [roPg w ?sql ?ps] =>
                  destruct (proj1 Hsound sql ps) as (? & ? & ?)
              | |- context [rwPg w ?sql ?ps] =>
                  destruct (proj2 Hsound sql ps) as (? & ?)
              end ]);
  step_run.

(** ** Further vocabulary: which statements go where *)

(** The statements the job reads with. *)
Definition read_statements : list string :=
  [COUNT_USERS; SUM_CONTENT_DAG_SIZE; COUNT_UPLOADS; COUNT_UPLOADS_PER_TYPE;
   COUNT_PINS; COUNT_PINS_PER_STATUS; COUNT_PIN_REQUESTS].

(** An event in keeping with the roles of the two clients: a read, among
    [read_statements], sent to [roPg], or [UPDATE_METRIC] with a name
    and a value sent to [rwPg]; anything that is not a statement is in
    keeping. *)
Definition in_keeping (ev : event) : Prop :=
  match ev with
  | Queried RoPg sql _ => In sql read_statements
  | Queried RwPg sql [VStr _; _] => sql = UPDATE_METRIC
  | Queried RwPg _ _ => False
  | _ => True
  end.

Definition is_write (ev : event) : bool :=
  match ev with
  | Queried RwPg _ _ => true
  | _ => false
  end.

(** A clock that runs backwards, by 3 ms per reading. *)
Definition backwards : world := {|
  roPg := roPg healthy;
  rwPg := rwPg healthy;
  clock := fun n => (1000 - 3 * Z.of_nat n)%Z
|}.

(** * File row of the files manager
      (packages/website/components/account/filesManager/fileRowItem.js)

    The parts of [FileRowItem] that compute: the highlighting of the
    search text in the name or the cid, what the copy icon puts on the
    clipboard, the tooltip of the pin status and the [Info] shown beside
    the status. *)

Module FileRowItem.

(** ** String methods

    Strings are sequences of characters and the methods below never
    look inside a character. *)

Fixpoint drop (n : nat) (s : string) : string :=
  match n, s with
  | O, _ => s
  | S _, EmptyString => EmptyString
  | S n', String _ rest => drop n' rest
  end.

(** The first occurrence of [needle] in [hay], as what comes before it
    and what comes after it. *)
Fixpoint search (needle hay : string) : option (string * string) :=
  if prefix needle hay then Some (EmptyString, drop (String.length needle) hay)
  else
    match hay with
    | EmptyString => None
    | String c rest =>
        match search needle rest with
        | Some (before, after) => Some (String c before, after)
        | None => None
        end
    end.

(** [hay.indexOf(needle)] *)
Definition indexOf (hay needle : string) : Z :=
  match search needle hay with
  | Some (before, _) => Z.of_nat (String.length before)
  | None => (-1)%Z
  end.

(** The replacement text [replace] substitutes for a match of a string
    pattern: in the template, [$$] stands for a dollar, [$&] for the
    match, [$`] for what precedes it and [$'] for what follows it; with
    no capture group any other [$] stands for itself. *)
Fixpoint expand (matched before after template : string) : string :=
  match template with
  | EmptyString => EmptyString
  | String c rest =>
      if Ascii.eqb c "$" then
        match rest with
        | String d rest' =>
            if Ascii.eqb d "$" then
              String "$" (expand matched before after rest')
            else if Ascii.eqb d "&" then
              matched +++ expand matched before after rest'
            else if Ascii.eqb d "`" then
              before +++ expand matched before after rest'
            else if Ascii.eqb d "'" then
              after +++ expand matched before after rest'
            else String c (expand matched before after rest)
        | EmptyString => String c EmptyString
        end
      else String c (expand matched before after rest)
  end.

(** [hay.replace(needle, template)] with a string for pattern: the first
    occurrence only. *)
Definition replace_ (hay needle template : string) : string :=
  match search needle hay with
  | Some (before, after) =>
      before +++ expand needle before after template +++ after
  | None => hay
  end.

Fixpoint no_dollar (s : string) : bool :=
  match s with
  | EmptyString => true
  | String c rest => negb (Ascii.eqb c "$") && no_dollar rest
  end.

(** ** Props *)

Inductive highlight_target : Type := OnName | OnCid.

(** [props.highlight]; the code provides for a missing [target] and a
    missing [text]. *)
Record highlight_props : Type := {
  target : option highlight_target;
  text : option string
}.

(** The props the computations below read; the others pass through
    [FileRowItem] untouched. *)
Record props : Type := {
  className : string;
  date : string;
  name : string;
  cid : string;
  status : string;
  size : string;
  numberOfPins : option Z;
  isHeader : bool;
  highlight : option highlight_props
}.

(** [props[target]] *)
Definition field (t : highlight_target) (p : props) : string :=
  match t with
  | OnName => name p
  | OnCid => cid p
  end.

(** [propsReturn[target] = v] *)
Definition with_field (t : highlight_target) (v : string) (p : props)
  : props :=
  match t with
  | OnName =>
      {| className := className p; date := date p; name := v; cid := cid p;
         status := status p; size := size p; numberOfPins := numberOfPins p;
         isHeader := isHeader p; highlight := highlight p |}
  | OnCid =>
      {| className := className p; date := date p; name := name p; cid := v;
         status := status p; size := size p; numberOfPins := numberOfPins p;
         isHeader := isHeader p; highlight := highlight p |}
  end.

Definition open_span : string :=
  "<span class=" +++ dquote +++ "highlight" +++ dquote +++ ">".

Definition close_span : string := "</span>".

(** The first [useMemo]: the props with the search text marked in the
    target field. *)
Definition highlighted (p : props) : props :=
  let target :=
    match highlight p with
    | Some h => target h
    | None => None
    end in
  let text :=
    match highlight p with
    | Some {| text := Some t |} => t
    | _ => EmptyString
    end in
  match target with
  | Some t =>
      if negb (indexOf (field t p) text =? -1)%Z
      then with_field t
                      (replace_ (field t p) text
                                (open_span +++ text +++ close_span))
                      p
      else p
  | None => p
  end.

(** What the copy icon hands to [addTextToClipboard]: the [cid] of the
    memoised props. *)
Definition copied (p : props) : string := cid (highlighted p).

(** ** The status tooltip *)

Definition PINNED : string := "Pinned".
Definition PINNING : string := "Pinning".
Definition PIN_QUEUED : string := "PinQueued".
Definition QUEUING : string := "Queuing...".

(** The messages read from [account.json], which is not part of the
    source tree, taken as parameters. *)
Record tooltip_messages : Type := {
  header : string;
  queuing : string;
  pin_queued : string;
  pinning : string;
  pinned : string
}.

(** The property names every object inherits from [Object.prototype]. *)
Definition object_prototype : list string :=
  ["constructor"; "hasOwnProperty"; "isPrototypeOf"; "propertyIsEnumerable";
   "toLocaleString"; "toString"; "valueOf"; "__proto__";
   "__defineGetter__"; "__defineSetter__"; "__lookupGetter__";
   "__lookupSetter__"].

(** What [object[key]] gives on an object literal of strings: an own
    property, an inherited one, or [undefined]. *)
Inductive looked_up : Type :=
| Own (message : string)
| Inherited
| Missing.

Fixpoint own (key : string) (entries : list (string * string))
  : option string :=
  match entries with
  | [] => None
  | (k, v) :: rest => if k =? key then Some v else own key rest
  end.

Definition lookup (key : string) (entries : list (string * string))
  : looked_up :=
  match own key entries with
  | Some v => Own v
  | None =>
      if existsb (String.eqb key) object_prototype then Inherited else Missing
  end.

Definition truthy_lookup (l : looked_up) : bool :=
  match l with
  | Own message => negb (message =? "")
  | Inherited => true
  | Missing => false
  end.

(** [`${numberOfPins}`] *)
Definition pins_text (n : option Z) : string :=
  match n with
  | Some z => number_to_string z
  | None => "undefined"
  end.

(** The second [useMemo]. *)
Definition statusTooltip (messages : tooltip_messages) (n : option Z)
           (status : string) : looked_up :=
  lookup status
         [(QUEUING, queuing messages);
          (PIN_QUEUED, pin_queued messages);
          (PINNING, pinning messages);
          (PINNED, replace_ (pinned messages) "*numberOfPins*" (pins_text n))].

Inductive icon_kind : Type := InfoAIcon | InfoBIcon.

(** An [Info] element: [icon || <InfoAIcon />] and the content. *)
Record info : Type := {
  icon : icon_kind;
  content : string
}.

(** The [Info] that follows the status in its cell, if any. *)
Definition status_info (messages : tooltip_messages) (p : props)
  : option info :=
  if isHeader p
  then Some {| icon := InfoAIcon; content := header messages |}
  else if truthy_lookup (statusTooltip messages (numberOfPins p) (status p))
       then Some {| icon := InfoBIcon; content := pinned messages |}
       else None.

(** The same props with another [numberOfPins]. *)
Definition with_pins (n : option Z) (p : props) : props :=
  {| className := className p; date := date p; name := name p; cid := cid p;
     status := status p; size := size p; numberOfPins := n;
     isHeader := isHeader p; highlight := highlight p |}.

(** Sample props and messages. *)
Definition sample : props := {|
  className := "";
  date := "2022-03-01";
  name := "cat.png and cat.jpg";
  cid := "bafybeigdyrzt";
  status := "Pinned";
  size := "1 MB";
  numberOfPins := Some 3%Z;
  isHeader := false;
  highlight := Some {| target := Some OnName; text := Some "cat" |}
|}.

(** A row whose name does not hold the search text. *)
Definition sample_absent : props := {|
  className := "";
  date := "2022-03-01";
  name := "dog.png";
  cid := "bafybeigdyrzt";
  status := "Pinning";
  size := "1 MB";
  numberOfPins := None;
  isHeader := false;
  highlight := Some {| target := Some OnName; text := Some "cat" |}
|}.

(** A row with the highlight on its cid. *)
Definition sample_on_cid (search_text : option string) : props := {|
  className := "";
  date := "2022-03-01";
  name := "dog.png";
  cid := "bafybeigdyrzt";
  status := "PinQueued";
  size := "1 MB";
  numberOfPins := None;
  isHeader := false;
  highlight := Some {| target := Some OnCid; text := search_text |}
|}.

Definition sample_messages : tooltip_messages := {|
  header := "Pin status";
  queuing := "Queuing";
  pin_queued := "Queued";
  pinning := "Pinning now";
  pinned := "Pinned on *numberOfPins* nodes"
|}.

End FileRowItem.

(** * Properties *)

Example lower_Nft : toLowerCase "Nft" = "nft".
Proof. reflexivity. Qed.

Example number_to_string_42 : number_to_string 42 = "42".
Proof. reflexivity. Qed.

Example number_to_string_0 : number_to_string 0 = "0".
Proof. reflexivity. Qed.

Example number_to_string_neg : number_to_string (-7) = "-7".
Proof. reflexivity. Qed.

Example String_array :
  String_ (VArray [VNum 1; VNull; VStr "a"]) = "1,,a".
Proof. reflexivity. Qed.

Example exec_users_healthy :
  exec healthy (withTimeLog "updateUsersCount" (fun _ => updateUsersCount)) 0
  = {| result := Fulfilled VUndefined;
       events := [Queried RoPg COUNT_USERS [];
                  Queried RwPg UPDATE_METRIC [VStr "users_total"; VStr "7"];
                  Logged "updateUsersCount took: 5ms"];
       ticks := 2 |}.
Proof. reflexivity. Qed.

Example exec_uploads_Nft :
  writes (events (exec healthy (updateUploadsCount (Some "Nft")) 0))
  = [(UPDATE_METRIC, [VStr "uploads_nft_total"; VStr "7"])].
Proof. reflexivity. Qed.

Example exec_pins_Pinned :
  writes (events (exec healthy (updatePinsCount (Some "Pinned")) 0))
  = [(UPDATE_METRIC, [VStr "pins_pinned_total"; VStr "7"]);
     (UPDATE_METRIC, [VStr "pins_total"; VStr "7"])].
Proof. reflexivity. Qed.

(** ** One function run alone *)

Lemma exec_bind {A B : Type} (w : world) (m : async A) (f : A -> async B) :
  forall tick,
    exec w (bind m f) tick
    = let r := exec w m tick in
      match result r with
      | Fulfilled a =>
          let r2 := exec w (f a) (ticks r) in
          {| result := result r2; events := events r ++ events r2;
             ticks := ticks r2 |}
      | Rejected e =>
          {| result := Rejected e; events := events r; ticks := ticks r |}
      end.
Proof.
  induction m as [a | e | h sql params k IH | k IH | line k IH];
    intros tick; simpl.
  - destruct (exec w (f a) tick); reflexivity.
  - reflexivity.
  - rewrite IH; simpl.
    destruct (result (exec w (k (answer w h sql params)) tick)); reflexivity.
  - apply IH.
  - rewrite IH; simpl. destruct (result (exec w k tick)); reflexivity.
Qed.

Lemma exec_finally {A : Type} (w : world) (m : async A) (f : async unit) :
  forall tick,
    exec w (finally_ m f) tick
    = let r := exec w m tick in
      let rf := exec w f (ticks r) in
      {| result := match result rf with
                   | Fulfilled _ => result r
                   | Rejected e => Rejected e
                   end;
         events := events r ++ events rf;
         ticks := ticks rf |}.
Proof.
  induction m as [a | e | h sql params k IH | k IH | line k IH];
    intros tick; simpl.
  - rewrite exec_bind; simpl.
    destruct (result (exec w f tick)); simpl; rewrite ?app_nil_r; reflexivity.
  - rewrite exec_bind; simpl.
    destruct (result (exec w f tick)); simpl; rewrite ?app_nil_r; reflexivity.
  - rewrite IH; reflexivity.
  - apply IH.
  - rewrite IH; reflexivity.
Qed.

(** C8: [withTimeLog(name, fn)] adds exactly one line to what [fn] emits,
    after it, made of the name and the time elapsed between the clock
    reading taken before [fn] and the one taken once [fn] has settled;
    it settles the way [fn] does, to the same value or the same error. *)
Theorem withTimeLog_logs_once_and_passes_through
        (name : string) (fn : unit -> async value) (w : world) (tick : nat) :
  let inner := exec w (fn tt) (S tick) in
  let outer := exec w (withTimeLog name fn) tick in
  result outer = result inner
  /\ events outer
     = events inner
       ++ [Logged (name +++ " took: "
                   +++ number_to_string (clock w (ticks inner) - clock w tick)
                   +++ "ms")]
  /\ (forall v, result inner = Fulfilled v -> result outer = Fulfilled v)
  /\ (forall e, result inner = Rejected e -> result outer = Rejected e).
Proof.
  intros inner outer. subst inner outer.
  unfold withTimeLog. cbn [exec]. rewrite exec_finally. cbn.
  repeat split; intros; assumption.
Qed.

Example withTimeLog_line :
  logged (events (exec healthy
                       (withTimeLog "updatePinsCount[Pinned]"
                                    (fun _ => updatePinsCount (Some "Pinned")))
                       3))
  = ["updatePinsCount[Pinned] took: 5ms"].
Proof. reflexivity. Qed.

Example withTimeLog_rejecting :
  exec barren (withTimeLog "updateUsersCount" (fun _ => updateUsersCount)) 0
  = {| result := Rejected (VError "no rows returned counting users");
       events := [Queried RoPg COUNT_USERS [];
                  Logged "updateUsersCount took: 1ms"];
       ticks := 2 |}.
Proof. reflexivity. Qed.

(** ** The metric functions *)

Lemma given_nonempty (s : string) : s <> "" -> given (Some s) = Some s.
Proof.
  intros Hs. destruct s as [| c s]; [congruence | reflexivity].
Qed.

Lemma given_cases (arg : option string) :
  given arg = None \/ exists s, arg = Some s /\ s <> "" /\ given arg = Some s.
Proof.
  destruct arg as [[| c s] |]; simpl; auto.
  right. exists (String c s). repeat split. discriminate.
Qed.

Lemma length_append (a b : string) :
  String.length (a +++ b) = String.length a + String.length b.
Proof.
  induction a as [| c a IH]; simpl; [reflexivity | now rewrite IH].
Qed.

Lemma length_toLowerCase (s : string) :
  String.length (toLowerCase s) = String.length s.
Proof.
  induction s as [| c s IH]; simpl; [reflexivity | now rewrite IH].
Qed.

(** A per-category metric name is never the name of the overall
    total. *)
Lemma category_name_not_total (base s : string) :
  (base +++ toLowerCase s +++ "_total" =? base +++ "total") = false.
Proof.
  apply String.eqb_neq. intros H.
  apply (f_equal String.length) in H.
  rewrite !length_append, length_toLowerCase in H. simpl in H. lia.
Qed.

(** C5: for every metric function and each read it makes, no row back
    means the function rejects and sends no write for the metric that
    read was computing. *)
Theorem zero_rows_reject_without_write (w : world) (tick : nat) :
  (roPg w COUNT_USERS [] = Resolved [] ->
   let r := exec w updateUsersCount tick in
   result r = Rejected (VError "no rows returned counting users")
   /\ writes (events r) = [])
  /\ (roPg w SUM_CONTENT_DAG_SIZE [] = Resolved [] ->
      let r := exec w updateContentRootDagSizeSum tick in
      result r = Rejected (VError "no rows returned counting users")
      /\ writes (events r) = [])
  /\ (forall type, given type = None ->
      roPg w COUNT_UPLOADS [] = Resolved [] ->
      let r := exec w (updateUploadsCount type) tick in
      result r = Rejected (VError "no rows returned counting uploads")
      /\ writes (events r) = [])
  /\ (forall type t, given type = Some t ->
      roPg w COUNT_UPLOADS_PER_TYPE [VStr t] = Resolved [] ->
      let r := exec w (updateUploadsCount type) tick in
      result r
      = Rejected (VError ("no rows returned counting " +++ t +++ " uploads"))
      /\ writes (events r) = [])
  /\ (forall status s, given status = Some s ->
      roPg w COUNT_PINS_PER_STATUS [VStr s] = Resolved [] ->
      let r := exec w (updatePinsCount status) tick in
      result r
      = Rejected (VError ("no rows returned counting " +++ s +++ " pins"))
      /\ writes (events r) = [])
  /\ (forall status,
      roPg w COUNT_PINS [] = Resolved [] ->
      let r := exec w (updatePinsCount status) tick in
      (exists e, result r = Rejected e)
      /\ existsb (writes_metric "pins_total") (writes (events r)) = false
      /\ (given status = None ->
          result r = Rejected (VError "no rows returned counting pins")
          /\ writes (events r) = []))
  /\ (roPg w COUNT_PIN_REQUESTS [] = Resolved [] ->
      let r := exec w updatePinRequestsCount tick in
      result r = Rejected (VError "no rows returned counting pin requests")
      /\ writes (events r) = []).
Proof.
  repeat split.
  all: try (intros; unfold updateUsersCount, updateContentRootDagSizeSum,
              updateUploadsCount, updatePinsCount, updatePinRequestsCount;
            run_metric; reflexivity).
  all: unfold updatePinsCount.
  all: destruct (given_cases status) as [Hn | (s & -> & Hs & Hg)];
    [ run_metric; solve [eauto] | rewrite Hg ].
  all: destruct (roPg w COUNT_PINS_PER_STATUS [VStr s]) as [[| r rows] |] eqn:Hq;
    run_metric; try solve [eauto].
  all: destruct (rwPg w UPDATE_METRIC
                      [VStr ("pins_" +++ toLowerCase s +++ "_total");
                       get "total" r]) eqn:Hw; run_metric; try solve [eauto].
  all: rewrite orb_false_r; apply (category_name_not_total "pins_" s).
Qed.

Lemma zero_rows_reject_without_write_witness :
  (result (exec barren updateUsersCount 0)
   = Rejected (VError "no rows returned counting users")
   /\ writes (events (exec barren updateUsersCount 0)) = [])
  /\ (result (exec barren (updateUploadsCount (Some "Nft")) 0)
      = Rejected (VError "no rows returned counting Nft uploads")
      /\ writes (events (exec barren (updateUploadsCount (Some "Nft")) 0)) = [])
  /\ existsb (writes_metric "pins_total")
             (writes (events (exec barren (updatePinsCount (Some "Pinned")) 0)))
     = false.
Proof.
  destruct (zero_rows_reject_without_write barren 0)
    as (Husers & _ & _ & Htype & _ & Hpins & _).
  split; [exact (Husers eq_refl) |].
  split; [exact (Htype (Some "Nft") "Nft" eq_refl eq_refl) |].
  exact (proj1 (proj2 (Hpins (Some "Pinned") eq_refl))).
Defined.

(** ** Numbers and strings of digits *)

Lemma all_digits_uint (d : Decimal.uint) :
  all_digits (NilEmpty.string_of_uint d) = true.
Proof.
  induction d; cbn [NilEmpty.string_of_uint all_digits]; auto.
Qed.

Lemma digits_only_uint (d : Decimal.uint) :
  digits_only (NilZero.string_of_uint d) = true.
Proof.
  unfold digits_only, NilZero.string_of_uint.
  destruct d; try reflexivity;
    cbn [NilEmpty.string_of_uint all_digits String.eqb negb andb];
    rewrite all_digits_uint; reflexivity.
Qed.

Lemma to_int_not_nil (n : Z) :
  Z.to_int n <> Decimal.Pos Decimal.Nil
  /\ Z.to_int n <> Decimal.Neg Decimal.Nil.
Proof.
  destruct n as [| p | p]; cbn [Z.to_int]; split; try discriminate;
    intros [= H]; exact (DecimalPos.Unsigned.to_uint_nonnil p H).
Qed.

(** The rendering of an integer is a decimal string. *)
Lemma number_to_string_decimal (n : Z) :
  decimal_string (number_to_string n) = true.
Proof.
  unfold number_to_string, NilZero.string_of_int.
  destruct (Z.to_int n) as [d | d].
  - pose proof (digits_only_uint d) as H.
    unfold NilZero.string_of_uint in *.
    destruct d; cbn [NilEmpty.string_of_uint] in *; exact H.
  - cbn [decimal_string Ascii.eqb Bool.eqb]. apply digits_only_uint.
Qed.

(** The rendering of an integer stands for that integer. *)
Lemma number_to_string_denotes (n : Z) :
  integer_of (number_to_string n) = Some n.
Proof.
  unfold integer_of, number_to_string.
  destruct (to_int_not_nil n) as [Hpos Hneg].
  rewrite NilZero.isi by assumption.
  cbn [option_map]. now rewrite DecimalZ.of_to.
Qed.

Example number_to_string_largest_safe :
  safe_integer 9007199254740991 = true
  /\ number_to_string 9007199254740991 = "9007199254740991"
  /\ integer_of big_sum = Some 123456789012345678901234567890%Z.
Proof. repeat split. Qed.

(** C9, as the code has it: whenever the read brings back a row,
    [updateContentRootDagSizeSum] sends exactly one write, of
    ["content_bytes_total"], whose value is the string
    [String(rows[0].total)].  A sum that arrives as a string, the way the
    database driver delivers one, is passed on character for character
    whatever its length, so that a decimal string stays the very same
    decimal string; a sum that arrives as a safe integer is written as
    the decimal string that stands for it.  Nothing is said of any other
    total. *)
Theorem content_bytes_total_as_string
        (w : world) (tick : nat) (r : row) (rows : list row) :
  roPg w SUM_CONTENT_DAG_SIZE [] = Resolved (r :: rows) ->
  events (exec w updateContentRootDagSizeSum tick)
  = [Queried RoPg SUM_CONTENT_DAG_SIZE [];
     Queried RwPg UPDATE_METRIC
             [VStr "content_bytes_total"; VStr (String_ (get "total" r))]]
  /\ (forall digits, get "total" r = VStr digits ->
      writes (events (exec w updateContentRootDagSizeSum tick))
      = [(UPDATE_METRIC, [VStr "content_bytes_total"; VStr digits])])
  /\ (forall n, get "total" r = VNum n -> safe_integer n = true ->
      exists digits,
        decimal_string digits = true
        /\ integer_of digits = Some n
        /\ writes (events (exec w updateContentRootDagSizeSum tick))
           = [(UPDATE_METRIC, [VStr "content_bytes_total"; VStr digits])]).
Proof.
  intros H.
  assert (E : events (exec w updateContentRootDagSizeSum tick)
              = [Queried RoPg SUM_CONTENT_DAG_SIZE [];
                 Queried RwPg UPDATE_METRIC
                         [VStr "content_bytes_total";
                          VStr (String_ (get "total" r))]]).
  { unfold updateContentRootDagSizeSum. run_metric.
    destruct (rwPg w UPDATE_METRIC
                   [VStr "content_bytes_total"; VStr (String_ (get "total" r))]);
      reflexivity. }
  split; [exact E |].
  split.
  - intros digits Hdigits. rewrite E, Hdigits. reflexivity.
  - intros n Hn _. exists (number_to_string n).
    split; [apply number_to_string_decimal |].
    split; [apply number_to_string_denotes |].
    rewrite E, Hn. reflexivity.
Qed.

Lemma content_bytes_total_as_string_witness :
  decimal_string big_sum = true
  /\ writes (events (exec healthy updateContentRootDagSizeSum 0))
     = [(UPDATE_METRIC,
         [VStr "content_bytes_total"; VStr "123456789012345678901234567890"])]
  /\ exists digits,
       decimal_string digits = true
       /\ integer_of digits = Some 9007199254740991%Z
       /\ writes (events (exec numeric updateContentRootDagSizeSum 0))
          = [(UPDATE_METRIC, [VStr "content_bytes_total"; VStr digits])].
Proof.
  split; [reflexivity |]. split.
  - exact (proj1 (proj2 (content_bytes_total_as_string
                           healthy 0 (r := [("total", VStr big_sum)])
                           (rows := []) eq_refl))
                 big_sum eq_refl).
  - exact (proj2 (proj2 (content_bytes_total_as_string
                           numeric 0
                           (r := [("total", VNum 9007199254740991)])
                           (rows := []) eq_refl))
                 9007199254740991%Z eq_refl eq_refl).
Defined.

(** C9 as stated fails when the sum is [NULL], which is what [SUM] gives
    over an empty table: the read has a row, and the value written is
    the string ["null"], which is not a decimal string. *)
Lemma null_sum_is_not_written_in_decimal :
  roPg empty_content SUM_CONTENT_DAG_SIZE [] = Resolved [[("total", VNull)]]
  /\ writes (events (exec empty_content updateContentRootDagSizeSum 0))
     = [(UPDATE_METRIC, [VStr "content_bytes_total"; VStr "null"])]
  /\ decimal_string "null" = false
  /\ integer_of "null" = None.
Proof.
  repeat split.
Qed.

(** C6, as the code has it: for every upload type that is not the empty
    string, the one write of [updateUploadsCount] with that type carries
    the name "uploads_" + lowercase type + "_total"; for every pin status
    that is not the empty string, the first write of [updatePinsCount]
    with that status carries "pins_" + lowercase status + "_total", and
    the only other name it writes is "pins_total". *)
Theorem category_metric_names
        (w : world) (tick : nat) (c : string) (r : row) (rows : list row) :
  c <> "" ->
  (roPg w COUNT_UPLOADS_PER_TYPE [VStr c] = Resolved (r :: rows) ->
   writes (events (exec w (updateUploadsCount (Some c)) tick))
   = [(UPDATE_METRIC,
       [VStr ("uploads_" +++ toLowerCase c +++ "_total"); get "total" r])])
  /\ (roPg w COUNT_PINS_PER_STATUS [VStr c] = Resolved (r :: rows) ->
      let ws := writes (events (exec w (updatePinsCount (Some c)) tick)) in
      hd_error ws
      = Some (UPDATE_METRIC,
              [VStr ("pins_" +++ toLowerCase c +++ "_total"); get "total" r])
      /\ forall x, In x (tl ws) -> writes_metric "pins_total" x = true).
Proof.
  intros Hc. pose proof (given_nonempty Hc) as Hg. split; intros H.
  - unfold updateUploadsCount. rewrite Hg. run_metric.
    destruct (rwPg w UPDATE_METRIC
                   [VStr ("uploads_" +++ toLowerCase c +++ "_total");
                    get "total" r]); reflexivity.
  - unfold updatePinsCount. rewrite Hg. run_metric.
    destruct (rwPg w UPDATE_METRIC
                   [VStr ("pins_" +++ toLowerCase c +++ "_total");
                    get "total" r]); run_metric.
    + destruct (roPg w COUNT_PINS []) as [[| r' rows'] |]; run_metric;
        (split; [reflexivity |]); cbn [tl In]; try tauto.
      destruct (rwPg w UPDATE_METRIC [VStr "pins_total"; get "total" r']);
        cbn [exec result events writes tl In];
        intros x [<- | []]; reflexivity.
    + split; [reflexivity |]. cbn [tl In]. tauto.
Qed.

Lemma category_metric_names_witness :
  writes (events (exec healthy (updateUploadsCount (Some "Nft")) 0))
  = [(UPDATE_METRIC, [VStr "uploads_nft_total"; VStr "7"])]
  /\ hd_error (writes (events (exec healthy (updatePinsCount (Some "PinError")) 0)))
     = Some (UPDATE_METRIC, [VStr "pins_pinerror_total"; VStr "7"]).
Proof.
  split.
  - refine (proj1 (@category_metric_names healthy 0 "Nft"
                     [("total", VStr "7")] [] _) eq_refl).
    discriminate.
  - refine (proj1 (proj2 (@category_metric_names healthy 0 "PinError"
                     [("total", VStr "7")] [] _) eq_refl)).
    discriminate.
Defined.

(** C6 as stated fails at the empty string: [if (type)] takes it for no
    type at all and the name written is "uploads_total". *)
Lemma uploads_name_of_empty_type :
  writes (events (exec healthy (updateUploadsCount (Some "")) 0))
  = [(UPDATE_METRIC, [VStr "uploads_total"; VStr "7"])]
  /\ "uploads_total" <> "uploads_" +++ toLowerCase "" +++ "_total".
Proof.
  split; [reflexivity | discriminate].
Qed.

(** C7, as the code has it: for every pin status that is not the empty
    string, a fulfilled [updatePinsCount] with that status has made two
    writes, the per-status one and then, after a second read of the
    overall count, "pins_total"; for every upload type that is not the
    empty string, a fulfilled [updateUploadsCount] with that type has
    made the per-type write only, and no run of it writes
    "uploads_total". *)
Theorem pins_write_twice_uploads_once
        (w : world) (tick : nat) (c : string) :
  c <> "" ->
  (forall v,
      result (exec w (updatePinsCount (Some c)) tick) = Fulfilled v ->
      exists n m,
        events (exec w (updatePinsCount (Some c)) tick)
        = [Queried RoPg COUNT_PINS_PER_STATUS [VStr c];
           Queried RwPg UPDATE_METRIC
                   [VStr ("pins_" +++ toLowerCase c +++ "_total"); n];
           Queried RoPg COUNT_PINS [];
           Queried RwPg UPDATE_METRIC [VStr "pins_total"; m]])
  /\ (forall v,
         result (exec w (updateUploadsCount (Some c)) tick) = Fulfilled v ->
         exists n,
           events (exec w (updateUploadsCount (Some c)) tick)
           = [Queried RoPg COUNT_UPLOADS_PER_TYPE [VStr c];
              Queried RwPg UPDATE_METRIC
                      [VStr ("uploads_" +++ toLowerCase c +++ "_total"); n]])
  /\ existsb (writes_metric "uploads_total")
             (writes (events (exec w (updateUploadsCount (Some c)) tick)))
     = false.
Proof.
  intros Hc. pose proof (given_nonempty Hc) as Hg.
  split; [| split].
  - unfold updatePinsCount. rewrite Hg. intros v.
    destruct (roPg w COUNT_PINS_PER_STATUS [VStr c]) as [[| r rows] |] eqn:Hq;
      run_metric; try discriminate.
    destruct (rwPg w UPDATE_METRIC
                   [VStr ("pins_" +++ toLowerCase c +++ "_total");
                    get "total" r]) eqn:Hw; run_metric; try discriminate.
    destruct (roPg w COUNT_PINS []) as [[| r' rows'] |] eqn:Hq';
      run_metric; try discriminate.
    destruct (rwPg w UPDATE_METRIC [VStr "pins_total"; get "total" r'])
      eqn:Hw'; run_metric; try discriminate.
    intros _. eauto.
  - unfold updateUploadsCount. rewrite Hg. intros v.
    destruct (roPg w COUNT_UPLOADS_PER_TYPE [VStr c]) as [[| r rows] |] eqn:Hq;
      run_metric; try discriminate.
    destruct (rwPg w UPDATE_METRIC
                   [VStr ("uploads_" +++ toLowerCase c +++ "_total");
                    get "total" r]) eqn:Hw; run_metric; try discriminate.
    intros _. eauto.
  - unfold updateUploadsCount. rewrite Hg.
    destruct (roPg w COUNT_UPLOADS_PER_TYPE [VStr c]) as [[| r rows] |] eqn:Hq;
      run_metric; try reflexivity.
    destruct (rwPg w UPDATE_METRIC
                   [VStr ("uploads_" +++ toLowerCase c +++ "_total");
                    get "total" r]) eqn:Hw; run_metric;
      rewrite orb_false_r; apply (category_name_not_total "uploads_" c).
Qed.

Lemma pins_write_twice_uploads_once_witness :
  (exists n m,
      events (exec healthy (updatePinsCount (Some "Pinned")) 0)
      = [Queried RoPg COUNT_PINS_PER_STATUS [VStr "Pinned"];
         Queried RwPg UPDATE_METRIC [VStr "pins_pinned_total"; n];
         Queried RoPg COUNT_PINS [];
         Queried RwPg UPDATE_METRIC [VStr "pins_total"; m]])
  /\ existsb (writes_metric "uploads_total")
             (writes (events (exec healthy (updateUploadsCount (Some "Car")) 0)))
     = false.
Proof.
  split.
  - refine (proj1 (@pins_write_twice_uploads_once healthy 0 "Pinned" _)
                  VUndefined eq_refl).
    discriminate.
  - refine (proj2 (proj2 (@pins_write_twice_uploads_once healthy 0 "Car" _))).
    discriminate.
Defined.

(** C7 as stated fails at the empty string: [if (status)] takes it for
    no status, and the fulfilled run has made one write only. *)
Lemma pins_of_empty_status_write_once :
  result (exec healthy (updatePinsCount (Some "")) 0) = Fulfilled VUndefined
  /\ writes (events (exec healthy (updatePinsCount (Some "")) 0))
     = [(UPDATE_METRIC, [VStr "pins_total"; VStr "7"])].
Proof.
  split; reflexivity.
Qed.

(** ** Settling *)

Section Settling.

Variable w : world.

Lemma settles_mono {A : Type} (o : outcome A) (m : async A) :
  forall n n', n <= n' -> settles w n o m -> settles w n' o m.
Proof.
  induction m as [a | e | h sql params k IH | k IH | line k IH];
    intros n n' Hle H; simpl in *; auto.
  - destruct n as [| n]; [contradiction |].
    destruct n' as [| n']; [lia |].
    apply IH with n; [lia | exact H].
  - intros t. apply IH with n; [exact Hle | apply H].
  - apply IH with n; assumption.
Qed.

(** [settles] agrees with the interpreter. *)
Lemma settles_exec {A : Type} (o : outcome A) (m : async A) :
  forall n tick, settles w n o m -> result (exec w m tick) = o.
Proof.
  induction m as [a | e | h sql params k IH | k IH | line k IH];
    intros n tick H; simpl in *; auto.
  - destruct n as [| n]; [contradiction |]. eapply IH; eassumption.
  - eapply IH. apply H.
  - eapply IH; eassumption.
Qed.

Lemma settles_bind {A B : Type} (m : async A) (f : A -> async B)
      (o : outcome B) :
  forall n n' a,
    settles w n (Fulfilled a) m ->
    settles w n' o (f a) ->
    settles w (n + n') o (bind m f).
Proof.
  induction m as [a0 | e | h sql params k IH | k IH | line k IH];
    intros n n' a H Hf; simpl in *.
  - injection H as ->. apply settles_mono with n'; [lia | exact Hf].
  - discriminate.
  - destruct n as [| n]; [contradiction |]. simpl. eapply IH; eassumption.
  - intros t. eapply IH; [apply H | exact Hf].
  - eapply IH; eassumption.
Qed.

Lemma settles_finally {A : Type} (m : async A) (f : async unit)
      (o : outcome A) :
  settles w 0 (Fulfilled tt) f ->
  forall n, settles w n o m -> settles w n o (finally_ m f).
Proof.
  intros Hf.
  induction m as [a | e | h sql params k IH | k IH | line k IH];
    intros n H; simpl in *.
  - subst o. apply settles_mono with (0 + 0); [lia |].
    eapply settles_bind; [exact Hf | reflexivity].
  - subst o. apply settles_mono with (0 + 0); [lia |].
    eapply settles_bind; [exact Hf | reflexivity].
  - destruct n as [| n]; [contradiction |]. apply IH, H.
  - intros t. apply IH, H.
  - apply IH, H.
Qed.

Lemma settles_withTimeLog (name : string)
      (fn : unit -> async value) (n : nat) (o : outcome value) :
  settles w n o (fn tt) -> settles w n o (withTimeLog name fn).
Proof.
  intros H start. apply settles_finally; [| exact H].
  intros stop. reflexivity.
Qed.

Lemma advance_settles (o : outcome value) (m : async value) :
  forall n tick,
    settles w n o m -> settles w n o (remainder (state (advance w m tick))).
Proof.
  induction m as [a | e | h sql params k IH | k IH | line k IH];
    intros n tick H; simpl in *; auto.
Qed.

(** Every metric function settles, after four queries at most, to what
    it settles to when run alone. *)
Lemma metric_settles (m : async value) :
  metric m -> settles w most_queries (result (exec w m 0)) m.
Proof.
  intros [-> | [-> | [[type ->] | [[status ->] | ->]]]];
    unfold updateUsersCount, updateContentRootDagSizeSum, updateUploadsCount,
      updatePinsCount, updatePinRequestsCount, most_queries;
    try destruct (given type); try destruct (given status);
    repeat (cbn [settles exec bind query answer result no_rows total];
            match goal with
            | |- context [roPg w ?sql ?ps] =>
                destruct (roPg w sql ps) as [[| ? ?] |]
            | |- context [rwPg w ?sql ?ps] =>
                destruct (rwPg w sql ps) as [? |]
            end);
    reflexivity.
Qed.

End Settling.

(** ** The array [updateMetrics] builds *)

Lemma tasks_metric (cfg : config) :
  Forall (fun task => metric (snd task tt)) (tasks cfg).
Proof.
  unfold tasks.
  repeat first
         [ apply Forall_app; split
         | apply Forall_cons
         | apply Forall_nil
         | apply Forall_forall; intros task Hin;
           apply in_map_iff in Hin as (c & <- & _) ];
    cbn [snd]; unfold metric; eauto 8.
Qed.

Lemma length_tasks (cfg : config) :
  List.length (tasks cfg)
  = 5 + List.length (UPLOAD_TYPES cfg) + List.length (PIN_STATUSES cfg).
Proof.
  unfold tasks. rewrite !length_app, !length_map. cbn [List.length]. lia.
Qed.

(** Every metric function begins with a read: once called it is
    suspended, not settled. *)
Lemma metric_suspends (w : world) (name : string) (fn : unit -> async value)
      (tick : nat) :
  metric (fn tt) ->
  is_pending (state (advance w (withTimeLog name fn) tick)) = true.
Proof.
  unfold withTimeLog. cbn [advance].
  intros [-> | [-> | [[type ->] | [[status ->] | ->]]]];
    unfold updateUsersCount, updateContentRootDagSizeSum, updateUploadsCount,
      updatePinsCount, updatePinRequestsCount;
    try destruct (given type); try destruct (given status);
    reflexivity.
Qed.

Lemma call_all_cons (w : world) (name : string) (fn : unit -> async value)
      (rest : list (string * (unit -> async value))) (tick : nat) :
  call_all w ((name, fn) :: rest) tick
  = let s := advance w (withTimeLog name fn) tick in
    let '(ps, evs, tick') := call_all w rest (after s) in
    (APromise (state s) :: ps, emitted s ++ evs, tick').
Proof. reflexivity. Qed.

Lemma call_all_tracked (w : world) (ts : list (string * (unit -> async value))) :
  Forall (fun task => metric (snd task tt)) ts ->
  forall tick ps evs tick',
    call_all w ts tick = (ps, evs, tick') ->
    Forall2 (tracked w) (map (fun task => (most_queries, alone w task)) ts)
            (map enlist ps)
    /\ in_flight (map enlist ps) = List.length ts.
Proof.
  induction 1 as [| [name fn] ts Hm Hts IH]; intros tick ps evs tick' Hcall.
  - injection Hcall as <- <- <-. split; [constructor | reflexivity].
  - rewrite call_all_cons in Hcall. cbv zeta in Hcall.
    destruct (call_all w ts (after (advance w (withTimeLog name fn) tick)))
      as [[ps0 evs0] tick0] eqn:Hrest.
    apply pair_equal_spec in Hcall as [Hcall <-].
    apply pair_equal_spec in Hcall as [<- <-].
    destruct (IH _ _ _ _ Hrest) as [Htracked Hcount].
    cbn [snd] in Hm. split.
    + cbn [map enlist]. constructor; [| exact Htracked].
      exists (state (advance w (withTimeLog name fn) tick)).
      split; [reflexivity |]. cbn [fst snd].
      apply advance_settles, settles_withTimeLog.
      unfold alone. cbn [snd]. apply metric_settles, Hm.
    + unfold in_flight in *.
      pose proof (metric_suspends w name fn tick Hm) as Hp.
      destruct (state (advance w (withTimeLog name fn) tick));
        [| discriminate].
      cbn [map enlist filter slot_pending is_pending List.length].
      now rewrite Hcount.
Qed.

(** ** Lists *)

Section Pairwise.

Variables A B : Type.
Variable R : A -> B -> Prop.

Lemma Forall2_nth_error_r (l1 : list A) (l2 : list B) :
  Forall2 R l1 l2 ->
  forall i y, nth_error l2 i = Some y ->
              exists x, nth_error l1 i = Some x /\ R x y.
Proof.
  induction 1 as [| x0 y0 l1 l2 HR _ IH]; intros [| i] y Hy; simpl in *;
    try discriminate.
  - injection Hy as <-. eauto.
  - eauto.
Qed.

Lemma Forall2_replace (l1 : list A) (l2 : list B) (x : A) (y : B) :
  Forall2 R l1 l2 -> R x y ->
  forall i, Forall2 R (replace i x l1) (replace i y l2).
Proof.
  induction 1 as [| x0 y0 l1 l2 HR H IH]; intros Hxy [| i]; simpl;
    constructor; auto.
Qed.

End Pairwise.

Lemma budget_replace (plan : list (nat * outcome value)) :
  forall i n o,
    nth_error plan i = Some (S n, o) ->
    S (list_sum (map fst (replace i (n, o) plan))) = list_sum (map fst plan)
    /\ map snd (replace i (n, o) plan) = map snd plan.
Proof.
  induction plan as [| [b o0] plan IH]; intros [| i] n o H; simpl in *;
    try discriminate.
  - injection H as -> ->. split; reflexivity.
  - destruct (IH _ _ _ H) as [Hsum Hsnd]. split; [lia | now rewrite Hsnd].
Qed.

Lemma pending_from_In (ss : list slot) :
  forall k i,
    In i (pending_from k ss) ->
    k <= i /\ exists s, nth_error ss (i - k) = Some s /\ slot_pending s = true.
Proof.
  induction ss as [| s ss IH]; intros k i Hin; simpl in Hin; [contradiction |].
  destruct (slot_pending s) eqn:Hs.
  - destruct Hin as [<- | Hin].
    + split; [lia |]. rewrite Nat.sub_diag. simpl. eauto.
    + destruct (IH _ _ Hin) as (Hle & s' & Hnth & Hp).
      split; [lia |]. exists s'. split; [| exact Hp].
      replace (i - k) with (S (i - S k)) by lia. exact Hnth.
  - destruct (IH _ _ Hin) as (Hle & s' & Hnth & Hp).
    split; [lia |]. exists s'. split; [| exact Hp].
    replace (i - k) with (S (i - S k)) by lia. exact Hnth.
Qed.

Lemma pending_from_nil (ss : list slot) :
  forall k, pending_from k ss = [] -> forallb (fun s => negb (slot_pending s)) ss = true.
Proof.
  induction ss as [| s ss IH]; intros k H; simpl in *; [reflexivity |].
  destruct (slot_pending s); [discriminate |]. simpl. eauto.
Qed.

Lemma chosen_In (sched : schedule) (turn : nat) (ids : list nat) :
  ids <> [] -> In (chosen sched turn ids) ids.
Proof.
  intros Hne. unfold chosen. apply nth_In.
  apply Nat.mod_upper_bound. destruct ids; [congruence | discriminate].
Qed.

Lemma in_flight_replace (ss : list slot) :
  forall i s s',
    nth_error ss i = Some s -> slot_pending s = true ->
    in_flight (replace i s' ss) <= in_flight ss.
Proof.
  unfold in_flight.
  induction ss as [| s0 ss IH]; intros [| i] s s' Hnth Hp; simpl in *;
    try discriminate.
  - injection Hnth as ->. rewrite Hp. destruct (slot_pending s'); simpl; lia.
  - specialize (IH _ _ s' Hnth Hp). destruct (slot_pending s0); simpl; lia.
Qed.

Lemma fill_started (w : world) (r : option nat) (ss : list slot) (tick : nat) :
  Forall (fun s => exists limited p, s = Started limited p) ss ->
  fill w r ss tick = (ss, [], tick).
Proof.
  induction 1 as [| s ss (limited & p & ->) _ IH]; simpl; [reflexivity |].
  now rewrite IH.
Qed.

Lemma tracked_started (w : world) (plan : list (nat * outcome value))
      (ss : list slot) :
  Forall2 (tracked w) plan ss ->
  Forall (fun s => exists limited p, s = Started limited p) ss.
Proof.
  induction 1 as [| x s plan ss (p & -> & _) _ IH]; constructor; eauto.
Qed.

Lemma tracked_settled (w : world) (plan : list (nat * outcome value))
      (ss : list slot) :
  Forall2 (tracked w) plan ss ->
  forallb (fun s => negb (slot_pending s)) ss = true ->
  outcomes ss = map snd plan /\ in_flight ss = 0.
Proof.
  unfold in_flight.
  induction 1 as [| [n o] s plan ss (p & -> & Hs) _ IH]; simpl;
    [split; reflexivity |].
  intros Hall. apply andb_true_iff in Hall as [Hp Hall].
  destruct (IH Hall) as [Hout Hzero].
  destruct p as [h sql params k | [v | e]]; simpl in *; try discriminate;
    subst o; rewrite Hout; auto.
Qed.

(** ** The loop over promises that are all under way *)

(** One turn of the loop: the answered promise moves on towards the
    outcome it is bound to, no other position changes, and nothing new
    comes in flight. *)
Lemma turn_tracked (w : world) (concurrency : option positive)
      (plan : list (nat * outcome value)) (m : machine) (i : nat) (s : slot) :
  Forall2 (tracked w) plan (slots m) ->
  nth_error (slots m) i = Some s ->
  slot_pending s = true ->
  in_flight (slots m) <= peak m ->
  let m' := refill w concurrency (deliver w i m) in
  exists plan',
    Forall2 (tracked w) plan' (slots m')
    /\ S (list_sum (map fst plan')) = list_sum (map fst plan)
    /\ map snd plan' = map snd plan
    /\ peak m' = peak m
    /\ in_flight (slots m') <= peak m'.
Proof.
  intros Htracked Hnth Hpending Hpeak.
  destruct (Forall2_nth_error_r Htracked _ Hnth) as ([n o] & Hplan & p & -> & Hs).
  destruct p as [h sql params k | out]; [| discriminate].
  cbn [fst snd remainder settles] in Hs.
  destruct n as [| n]; [contradiction |].
  set (s := advance w (k (answer w h sql params)) (clk m)).
  assert (Hdeliver : deliver w i m
                     = {| slots := replace i (Started false (state s)) (slots m);
                          clk := after s;
                          trace := trace m ++ emitted s;
                          peak := peak m |}).
  { unfold deliver. rewrite Hnth. reflexivity. }
  assert (Htracked' : Forall2 (tracked w) (replace i (n, o) plan)
                              (replace i (Started false (state s)) (slots m))).
  { apply Forall2_replace; [exact Htracked |].
    exists (state s). split; [reflexivity |].
    apply advance_settles. exact Hs. }
  assert (Hle : in_flight (replace i (Started false (state s)) (slots m))
                <= peak m).
  { etransitivity; [| exact Hpeak].
    eapply in_flight_replace; [exact Hnth | reflexivity]. }
  cbv zeta. rewrite Hdeliver. unfold refill. cbn [slots clk trace peak].
  rewrite (fill_started w _ _ (tracked_started Htracked')).
  cbn [slots peak].
  destruct (budget_replace plan i Hplan) as [Hsum Hsnd].
  exists (replace i (n, o) plan).
  repeat split; try assumption; lia.
Qed.

Lemma loop_tracked (w : world) (concurrency : option positive)
      (sched : schedule) :
  forall fuel plan m turn,
    Forall2 (tracked w) plan (slots m) ->
    list_sum (map fst plan) <= fuel ->
    in_flight (slots m) <= peak m ->
    exists m',
      loop fuel w concurrency sched turn m = Some m'
      /\ outcomes (slots m') = map snd plan
      /\ peak m' = peak m
      /\ in_flight (slots m') = 0.
Proof.
  induction fuel as [| fuel IH]; intros plan m turn Htracked Hfuel Hpeak;
    destruct (pending_from 0 (slots m)) as [| i0 ids] eqn:Hids.
  - exists m. cbn [loop]. rewrite Hids.
    destruct (tracked_settled Htracked (pending_from_nil _ _ Hids)).
    auto.
  - exfalso.
    assert (Hin : In (chosen sched turn (i0 :: ids)) (i0 :: ids))
      by (apply chosen_In; discriminate).
    rewrite <- Hids in Hin.
    apply pending_from_In in Hin as (_ & s & Hnth & Hp).
    rewrite Nat.sub_0_r in Hnth.
    destruct (@turn_tracked w concurrency _ _ _ _ Htracked Hnth Hp Hpeak)
      as (plan' & _ & Hsum & _).
    lia.
  - exists m. cbn [loop]. rewrite Hids.
    destruct (tracked_settled Htracked (pending_from_nil _ _ Hids)).
    auto.
  - assert (Hin : In (chosen sched turn (i0 :: ids)) (i0 :: ids))
      by (apply chosen_In; discriminate).
    rewrite <- Hids in Hin.
    apply pending_from_In in Hin as (_ & s & Hnth & Hp).
    rewrite Nat.sub_0_r in Hnth.
    destruct (@turn_tracked w concurrency _ _ _ _ Htracked Hnth Hp Hpeak)
      as (plan' & Htracked' & Hsum & Hsnd & Hpeak' & Hle').
    cbn [loop]. rewrite Hids. rewrite <- Hids.
    destruct (IH plan' _ (S turn) Htracked' ltac:(lia) Hle')
      as (m' & Hloop & Hout & Hpk & Hzero).
    exists m'. repeat split; congruence.
Qed.

(** ** The job as a whole *)

Lemma reduce_spec (results : list (outcome value)) :
  forall error,
    snd (reduce results error) = map ConsoleError (reasons results)
    /\ (let final := fst (reduce results error) in
        if truthy final then Some final else None)
       = (if truthy error then Some error
          else find truthy (reasons results)).
Proof.
  induction results as [| [v | reason] results IH]; intros error;
    cbn [reduce reasons map find].
  - split; reflexivity.
  - apply IH.
  - destruct (reduce results (or_else error reason)) as [final evs] eqn:Hred.
    destruct (IH (or_else error reason)) as [Hevs Hfinal].
    rewrite Hred in Hevs, Hfinal. cbn [fst snd] in *. split.
    + now rewrite Hevs.
    + rewrite Hfinal. unfold or_else.
      destruct (truthy error) eqn:He; [now rewrite He |].
      reflexivity.
Qed.

Lemma in_flight_app (ss ss' : list slot) :
  in_flight (ss ++ ss') = in_flight ss + in_flight ss'.
Proof.
  unfold in_flight. now rewrite filter_app, length_app.
Qed.

Lemma budget_tasks (w : world) (ts : list (string * (unit -> async value))) :
  list_sum (map fst (map (fun task => (most_queries, alone w task)) ts))
  = most_queries * List.length ts.
Proof.
  unfold most_queries.
  induction ts as [| task ts IH]; [reflexivity |].
  change (4 + list_sum (map fst (map (fun task => (4, alone w task)) ts))
          = 4 * S (List.length ts)).
  rewrite IH. lia.
Qed.

(** What every run of the job comes to, given fuel for four queries per
    task: the array has one element more than there are tasks, all the
    tasks are in flight when it is handed to [settle], with no limit;
    [settle] resolves to each task's own outcome, in the order of the
    array, followed by a fulfilled outcome for the options object; the
    reasons of the rejected outcomes go to [console.error] in that order,
    and the first truthy one, if any, is thrown. *)
Lemma updateMetrics_runs (fuel : nat) (cfg : config) (w : world)
      (sched : schedule) :
  most_queries * List.length (tasks cfg) <= fuel ->
  exists j,
    updateMetrics fuel cfg w sched = Some j
    /\ List.length (submitted j) = S (List.length (tasks cfg))
    /\ limit j = None
    /\ in_flight (map enlist (submitted j)) = List.length (tasks cfg)
    /\ most_in_flight j = List.length (tasks cfg)
    /\ results j = map (alone w) (tasks cfg) ++ [Fulfilled (options cfg)]
    /\ thrown j = find truthy (reasons (results j))
    /\ exists earlier,
        output j
        = earlier ++ map ConsoleError (reasons (results j))
          ++ (match thrown j with
              | Some _ => []
              | None => [Logged done]
              end).
Proof.
  intros Hfuel. unfold updateMetrics.
  destruct (call_all w (tasks cfg) 0) as [[promises evs] tick] eqn:Hcall.
  destruct (call_all_tracked w (tasks_metric cfg) _ Hcall)
    as [Htracked Hcount].
  assert (Hlen : List.length promises = List.length (tasks cfg)).
  { apply Forall2_length in Htracked. rewrite !length_map in Htracked.
    congruence. }
  set (array := promises ++ [AValue (options cfg)]).
  set (plan := map (fun task => (most_queries, alone w task)) (tasks cfg)
               ++ [(0, Fulfilled (options cfg))]).
  assert (Hplan : Forall2 (tracked w) plan (map enlist array)).
  { unfold plan, array. rewrite map_app. apply Forall2_app; [exact Htracked |].
    repeat constructor.
    exists (Settled (Fulfilled (options cfg))). split; reflexivity. }
  assert (Hflight : in_flight (map enlist array) = List.length (tasks cfg)).
  { unfold array. rewrite map_app, in_flight_app, Hcount.
    cbn [map enlist in_flight filter slot_pending is_pending List.length].
    lia. }
  unfold settle, refill. cbn [slots clk trace peak].
  rewrite (fill_started w _ _ (tracked_started Hplan)).
  rewrite Nat.max_id.
  match goal with
  | |- context [loop fuel w None sched 0 ?m0] =>
      destruct (@loop_tracked w None sched fuel plan m0 0)
        as (m & Hloop & Hout & Hpeak & _)
  end.
  - exact Hplan.
  - unfold plan. rewrite map_app, list_sum_app, budget_tasks.
    cbn [map fst list_sum fold_right Nat.add]. lia.
  - cbn [slots peak]. lia.
  - rewrite Hloop.
    assert (Hresults : outcomes (slots m)
                       = map (alone w) (tasks cfg) ++ [Fulfilled (options cfg)]).
    { rewrite Hout. unfold plan. rewrite map_app, map_map. reflexivity. }
    destruct (reduce (outcomes (slots m)) VUndefined) as [error errs] eqn:Hred.
    destruct (reduce_spec (outcomes (slots m)) VUndefined) as [Herrs Herror].
    rewrite Hred in Herrs, Herror. cbn [fst snd truthy] in Herrs, Herror.
    eexists. split; [reflexivity |]. cbn [submitted limit results output
                                            most_in_flight thrown].
    repeat split.
    + unfold array. rewrite length_app, Hlen. cbn [List.length]. lia.
    + exact Hflight.
    + rewrite Hpeak. cbn [peak]. exact Hflight.
    + exact Hresults.
    + exact Herror.
    + exists (evs ++ trace m). rewrite Herrs, <- app_assoc.
      destruct (truthy error); reflexivity.
Qed.

(** C1: the limit is not applied.  Whatever [MAX_CONCURRENT_QUERIES]
    is, [settle] is called without a limit, and every task is in flight at
    once: with a limit below the number of tasks, more tasks run
    concurrently than the limit allows. *)
Theorem updateMetrics_exceeds_limit
        (fuel : nat) (cfg : config) (w : world) (sched : schedule) :
  most_queries * List.length (tasks cfg) <= fuel ->
  Pos.to_nat (MAX_CONCURRENT_QUERIES cfg) < 5 ->
  exists j,
    updateMetrics fuel cfg w sched = Some j
    /\ limit j = None
    /\ most_in_flight j
       = 5 + List.length (UPLOAD_TYPES cfg) + List.length (PIN_STATUSES cfg)
    /\ Pos.to_nat (MAX_CONCURRENT_QUERIES cfg) < most_in_flight j.
Proof.
  intros Hfuel Hlimit.
  destruct (@updateMetrics_runs fuel cfg w sched Hfuel)
    as (j & Hrun & _ & Hnone & _ & Hpeak & _).
  exists j. rewrite Hpeak, length_tasks.
  repeat split; try assumption. lia.
Qed.

Lemma updateMetrics_exceeds_limit_witness :
  exists j,
    updateMetrics 20 bare healthy in_order = Some j
    /\ limit j = None
    /\ most_in_flight j = 5
    /\ Pos.to_nat (MAX_CONCURRENT_QUERIES bare) < most_in_flight j.
Proof.
  apply (@updateMetrics_exceeds_limit 20 bare healthy in_order);
    vm_compute; lia.
Defined.

Example one_at_a_time_runs_five_at_once :
  option_map (fun j => (limit j, most_in_flight j))
             (updateMetrics 20 bare healthy in_order)
  = Some (None, 5).
Proof. vm_compute. reflexivity. Qed.

(** C2: the results have one entry more than there are tasks.  The
    outcomes of the tasks come first, in the order the tasks were listed,
    and are followed by a fulfilled outcome holding the options object. *)
Theorem updateMetrics_extra_result
        (fuel : nat) (cfg : config) (w : world) (sched : schedule) :
  most_queries * List.length (tasks cfg) <= fuel ->
  exists j,
    updateMetrics fuel cfg w sched = Some j
    /\ List.length (results j) = S (List.length (tasks cfg))
    /\ results j = map (alone w) (tasks cfg) ++ [Fulfilled (options cfg)].
Proof.
  intros Hfuel.
  destruct (@updateMetrics_runs fuel cfg w sched Hfuel)
    as (j & Hrun & _ & _ & _ & _ & Hresults & _).
  exists j. repeat split; try assumption.
  rewrite Hresults, length_app, length_map. cbn [List.length]. lia.
Qed.

Lemma updateMetrics_extra_result_witness :
  exists j,
    updateMetrics 20 bare healthy last_first = Some j
    /\ List.length (results j) = 6
    /\ results j
       = map (alone healthy) (tasks bare)
         ++ [Fulfilled (VObject [("concurrency", VNum 1)])].
Proof.
  apply (@updateMetrics_extra_result 20 bare healthy last_first).
  vm_compute; lia.
Defined.

Example eight_tasks_nine_results :
  option_map (fun j => (List.length (submitted j), List.length (results j),
                        most_in_flight j, thrown j))
             (updateMetrics 32 typical healthy last_first)
  = Some (9, 9, 8, None).
Proof. vm_compute. reflexivity. Qed.

Example five_tasks_six_results :
  option_map results (updateMetrics 20 bare healthy last_first)
  = Some [Fulfilled VUndefined;
          Fulfilled VUndefined;
          Fulfilled (VObject [("rows", VArray [])]);
          Fulfilled VUndefined;
          Fulfilled VUndefined;
          Fulfilled (VObject [("concurrency", VNum 1)])].
Proof. vm_compute. reflexivity. Qed.

(** C4: every task has been called and is under way when the array
    reaches [settle], and by the time the results are reduced every task
    has settled the way its body settles when run alone, whatever the
    other tasks came to and in whatever order the queries were
    answered. *)
Theorem rejections_do_not_stop_siblings
        (fuel : nat) (cfg : config) (w : world) (sched : schedule) :
  most_queries * List.length (tasks cfg) <= fuel ->
  exists j,
    updateMetrics fuel cfg w sched = Some j
    /\ in_flight (map enlist (submitted j)) = List.length (tasks cfg)
    /\ forall i task,
        nth_error (tasks cfg) i = Some task ->
        nth_error (results j) i = Some (alone w task).
Proof.
  intros Hfuel.
  destruct (@updateMetrics_runs fuel cfg w sched Hfuel)
    as (j & Hrun & _ & _ & Hflight & _ & Hresults & _).
  exists j. repeat split; try assumption.
  intros i task Hnth. rewrite Hresults.
  rewrite nth_error_app1
    by (rewrite length_map; apply nth_error_Some; congruence).
  now rewrite nth_error_map, Hnth.
Qed.

Lemma rejections_do_not_stop_siblings_witness :
  exists j,
    updateMetrics 20 bare (failing [(COUNT_USERS, VError "boom")]) in_order
    = Some j
    /\ nth_error (results j) 0 = Some (Rejected (VError "boom"))
    /\ nth_error (results j) 4 = Some (Fulfilled VUndefined).
Proof.
  destruct (@rejections_do_not_stop_siblings
              20 bare (failing [(COUNT_USERS, VError "boom")]) in_order)
    as (j & Hrun & _ & Hresults); [vm_compute; lia |].
  exists j. split; [exact Hrun |]. split.
  - exact (Hresults 0 _ eq_refl).
  - exact (Hresults 4 _ eq_refl).
Defined.

(** ** The reduction of the outcomes *)

Lemma find_truthy_head (first : value) (others : list value) :
  truthy first = true -> find truthy (first :: others) = Some first.
Proof.
  intros H. cbn [find]. now rewrite H.
Qed.

Lemma find_truthy_some (rs : list value) :
  find truthy rs <> None <-> exists r, In r rs /\ truthy r = true.
Proof.
  split.
  - destruct (find truthy rs) as [r |] eqn:Hfind; [| congruence].
    intros _. exists r. apply (find_some _ _ Hfind).
  - intros (r & Hin & Hr) Hnone.
    pose proof (find_none _ _ Hnone r Hin). congruence.
Qed.

Lemma find_truthy_first (rs : list value) (r : value) :
  find truthy rs = Some r <->
  exists before after,
    rs = before ++ r :: after
    /\ forallb (fun x => negb (truthy x)) before = true
    /\ truthy r = true.
Proof.
  induction rs as [| x rs IH]; cbn [find].
  - split; [discriminate |].
    intros (before & after & H & _). destruct before; discriminate.
  - destruct (truthy x) eqn:Hx.
    + split.
      * intros [= <-]. exists [], rs. auto.
      * intros ([| y before] & after & H & Hfalsy & Hr).
        -- now injection H as -> _.
        -- injection H as -> _. cbn [forallb] in Hfalsy.
           rewrite Hx in Hfalsy. discriminate.
    + rewrite IH. split.
      * intros (before & after & -> & Hfalsy & Hr).
        exists (x :: before), after. cbn [forallb]. rewrite Hx. auto.
      * intros ([| y before] & after & H & Hfalsy & Hr).
        -- injection H as -> _. congruence.
        -- injection H as -> ->. cbn [forallb] in Hfalsy.
           apply andb_true_iff in Hfalsy as [_ Hfalsy]. eauto.
Qed.

(** C10: the job throws exactly when some rejected outcome has a truthy
    reason, and what it throws is the first such reason in the order of
    the results: falsy reasons before it are passed over.  Every reason,
    falsy or not, goes to [console.error], and when none is truthy the
    run ends on the completion marker. *)
Theorem updateMetrics_throws_first_truthy_reason
        (fuel : nat) (cfg : config) (w : world) (sched : schedule) :
  most_queries * List.length (tasks cfg) <= fuel ->
  exists j,
    updateMetrics fuel cfg w sched = Some j
    /\ (thrown j <> None <->
        exists r, In r (reasons (results j)) /\ truthy r = true)
    /\ (forall r,
           thrown j = Some r <->
           exists before after,
             reasons (results j) = before ++ r :: after
             /\ forallb (fun x => negb (truthy x)) before = true
             /\ truthy r = true)
    /\ (forallb (fun x => negb (truthy x)) (reasons (results j)) = true ->
        thrown j = None
        /\ exists earlier,
            output j
            = earlier ++ map ConsoleError (reasons (results j))
              ++ [Logged done]).
Proof.
  intros Hfuel.
  destruct (@updateMetrics_runs fuel cfg w sched Hfuel)
    as (j & Hrun & _ & _ & _ & _ & _ & Hthrown & earlier & Hout).
  exists j. split; [exact Hrun |]. rewrite Hthrown in *.
  split; [apply find_truthy_some |].
  split; [intros r; apply find_truthy_first |].
  intros Hfalsy.
  assert (Hnone : find truthy (reasons (results j)) = None).
  { destruct (find truthy (reasons (results j))) as [r |] eqn:Hfind;
      [| reflexivity].
    destruct (find_some _ _ Hfind) as [Hin Hr].
    rewrite forallb_forall in Hfalsy. specialize (Hfalsy r Hin).
    rewrite Hr in Hfalsy. discriminate. }
  rewrite Hnone in *. split; [reflexivity |]. exists earlier. exact Hout.
Qed.

Lemma updateMetrics_throws_first_truthy_reason_witness :
  exists j,
    updateMetrics 20 bare (failing [(COUNT_USERS, VUndefined)]) in_order
    = Some j
    /\ reasons (results j) = [VUndefined]
    /\ thrown j = None
    /\ exists earlier,
        output j = earlier ++ [ConsoleError VUndefined; Logged done].
Proof.
  destruct (@updateMetrics_throws_first_truthy_reason
              20 bare (failing [(COUNT_USERS, VUndefined)]) in_order)
    as (j & Hrun & _ & _ & Hquiet); [vm_compute; lia |].
  assert (Hreasons : reasons (results j) = [VUndefined]).
  { vm_compute in Hrun. injection Hrun as <-. reflexivity. }
  exists j. rewrite Hreasons in *.
  destruct (Hquiet eq_refl) as [Hnone Hout]. auto.
Defined.

Example falsy_first_reason_is_passed_over :
  option_map (fun j => (reasons (results j), thrown j))
             (updateMetrics 20 bare
                (failing [(COUNT_USERS, VNull);
                          (COUNT_PIN_REQUESTS, VError "boom")])
                last_first)
  = Some ([VNull; VError "boom"], Some (VError "boom")).
Proof. vm_compute. reflexivity. Qed.

(** C3, as the code has it: the reasons of all the rejected outcomes go
    to [console.error], in the order of the results; when the reason of
    the first rejected outcome is truthy, it is what the job throws; with
    no rejected outcome the job throws nothing and ends on the completion
    marker. *)
Theorem updateMetrics_logs_all_throws_first
        (fuel : nat) (cfg : config) (w : world) (sched : schedule) :
  most_queries * List.length (tasks cfg) <= fuel ->
  exists j,
    updateMetrics fuel cfg w sched = Some j
    /\ (exists earlier closing,
           output j
           = earlier ++ map ConsoleError (reasons (results j)) ++ closing)
    /\ (forall first others,
           reasons (results j) = first :: others ->
           truthy first = true ->
           thrown j = Some first)
    /\ (reasons (results j) = [] ->
        thrown j = None
        /\ exists earlier, output j = earlier ++ [Logged done]).
Proof.
  intros Hfuel.
  destruct (@updateMetrics_runs fuel cfg w sched Hfuel)
    as (j & Hrun & _ & _ & _ & _ & _ & Hthrown & earlier & Hout).
  exists j. split; [exact Hrun |]. split; [eauto |]. split.
  - intros first others Hreasons Hfirst.
    rewrite Hthrown, Hreasons. now apply find_truthy_head.
  - intros Hnone. rewrite Hthrown, Hnone in *. cbn [find map app] in *.
    eauto.
Qed.

Lemma updateMetrics_logs_all_throws_first_witness :
  exists j,
    updateMetrics 20 bare
      (failing [(COUNT_UPLOADS, VError "boom");
                (COUNT_PINS, VError "bang")]) last_first
    = Some j
    /\ reasons (results j) = [VError "boom"; VError "bang"]
    /\ thrown j = Some (VError "boom").
Proof.
  destruct (@updateMetrics_logs_all_throws_first
              20 bare
              (failing [(COUNT_UPLOADS, VError "boom");
                        (COUNT_PINS, VError "bang")]) last_first)
    as (j & Hrun & _ & Hfirst & _); [vm_compute; lia |].
  assert (Hreasons : reasons (results j) = [VError "boom"; VError "bang"]).
  { vm_compute in Hrun. injection Hrun as <-. reflexivity. }
  exists j. split; [exact Hrun |]. split; [exact Hreasons |].
  exact (Hfirst _ _ Hreasons eq_refl).
Defined.

(** C3 as stated fails when the first rejected outcome has a falsy
    reason: here the first reason is [undefined] and the job throws the
    later one; and with [undefined] as the only reason it throws
    nothing. *)
Lemma first_rejection_reason_not_thrown :
  option_map (fun j => (reasons (results j), thrown j))
             (updateMetrics 20 bare
                (failing [(COUNT_USERS, VUndefined);
                          (COUNT_PIN_REQUESTS, VError "boom")])
                in_order)
  = Some ([VUndefined; VError "boom"], Some (VError "boom"))
  /\ option_map (fun j => (reasons (results j), thrown j))
                (updateMetrics 20 bare (failing [(COUNT_USERS, VUndefined)])
                               in_order)
     = Some ([VUndefined], None).
Proof.
  split; vm_compute; reflexivity.
Qed.

(** ** The limiter of [settle] *)

Lemma in_flight_limited (ss : list slot) :
  Forall limited ss -> in_flight ss = active ss.
Proof.
  unfold in_flight, active.
  induction 1 as [| s ss Hs _ IH]; [reflexivity |].
  destruct s as [f | l p]; cbn [limited] in Hs;
    cbn [filter slot_pending slot_active]; [exact IH |].
  subst l. destruct (is_pending p); cbn [List.length]; congruence.
Qed.

Lemma active_replace (ss : list slot) :
  forall i l h sql params k p,
    nth_error ss i = Some (Started l (Pending h sql params k)) ->
    active (replace i (Started l p) ss) <= active ss
    /\ (Forall limited ss -> Forall limited (replace i (Started l p) ss)).
Proof.
  unfold active.
  induction ss as [| s ss IH]; intros [| i] l h sql params k p Hnth;
    cbn [nth_error replace] in *; try discriminate.
  - injection Hnth as ->. split.
    + destruct l; cbn [filter slot_active is_pending List.length];
        [destruct (is_pending p); cbn [List.length] |]; lia.
    + intros Hall. inversion Hall; subst. constructor; assumption.
  - destruct (IH _ _ _ _ _ _ p Hnth) as [Hle Hlim]. split.
    + cbn [filter]. destruct (slot_active s); cbn [List.length]; lia.
    + intros Hall. inversion Hall; subst. constructor; auto.
Qed.

Lemma fill_limited (w : world) (ss : list slot) :
  forall n tick ss' evs tick',
    fill w (Some n) ss tick = (ss', evs, tick') ->
    active ss' <= active ss + n
    /\ (Forall limited ss -> Forall limited ss').
Proof.
  unfold active.
  induction ss as [| s ss IH]; intros n tick ss' evs tick' Hfill.
  - injection Hfill as <- _ _. split; [cbn; lia | auto].
  - destruct s as [f | l p].
    + cbn [fill has_room] in Hfill.
      destruct (n =? 0)%nat eqn:Hn; cbn [negb] in Hfill.
      * injection Hfill as <- _ _. split; [lia | auto].
      * apply Nat.eqb_neq in Hn.
        set (s := advance w (f tt) tick) in *.
        destruct (is_pending (state s)) eqn:Hp; cbn [take_place] in Hfill;
          match type of Hfill with
          | context [fill w (Some ?r) ss ?t] =>
              destruct (fill w (Some r) ss t) as [[rest evs0] tick0] eqn:Hrest
          end;
          apply pair_equal_spec in Hfill as [Hfill _];
          apply pair_equal_spec in Hfill as [<- _];
          destruct (IH _ _ _ _ _ Hrest) as [Hle Hlim];
          cbn [filter slot_active]; rewrite Hp; cbn [List.length];
          (split; [lia |]);
          intros Hall; inversion Hall; subst; constructor; cbn; auto.
    + cbn [fill] in Hfill.
      destruct (fill w (Some n) ss tick) as [[rest evs0] tick0] eqn:Hrest.
      apply pair_equal_spec in Hfill as [Hfill _].
      apply pair_equal_spec in Hfill as [<- _].
      destruct (IH _ _ _ _ _ Hrest) as [Hle Hlim]. split.
      * cbn [filter]. destruct (slot_active (Started l p));
          cbn [List.length]; lia.
      * intros Hall. inversion Hall; subst. constructor; auto.
Qed.

Lemma refill_bounded (w : world) (c : positive) (m : machine) :
  bounded c m -> bounded c (refill w (Some c) m).
Proof.
  intros (Hlim & Hactive & Hpeak). unfold refill, room.
  destruct (fill w (Some (Pos.to_nat c - active (slots m))) (slots m) (clk m))
    as [[ss evs] tick] eqn:Hfill.
  destruct (fill_limited _ _ _ _ Hfill) as [Hle Hlim'].
  specialize (Hlim' Hlim).
  unfold bounded. cbn [slots peak].
  rewrite (in_flight_limited Hlim').
  repeat split; [exact Hlim' | lia | lia].
Qed.

Lemma deliver_bounded (w : world) (c : positive) (i : nat) (m : machine) :
  bounded c m -> bounded c (deliver w i m).
Proof.
  intros (Hlim & Hactive & Hpeak). unfold deliver.
  destruct (nth_error (slots m) i) as [[f | l [h sql params k | o]] |] eqn:Hnth;
    try (repeat split; assumption).
  destruct (active_replace _ _
              (state (advance w (k (answer w h sql params)) (clk m))) Hnth)
    as [Hle Hlim'].
  unfold bounded. cbn [slots peak].
  repeat split; [auto | lia | exact Hpeak].
Qed.

Lemma loop_bounded (w : world) (c : positive) (sched : schedule) :
  forall fuel turn m m',
    bounded c m ->
    loop fuel w (Some c) sched turn m = Some m' ->
    bounded c m'.
Proof.
  induction fuel as [| fuel IH]; intros turn m m' Hm Hloop;
    cbn [loop] in Hloop;
    destruct (pending_from 0 (slots m)) as [| i0 ids];
    try discriminate; try (injection Hloop as <-; exact Hm).
  eapply IH; [| exact Hloop].
  apply refill_bounded, deliver_bounded, Hm.
Qed.

Lemma active_queued (fs : list (unit -> async value)) :
  active (map enlist (map AFunction fs)) = 0.
Proof.
  unfold active. induction fs as [| f fs IH]; [reflexivity | exact IH].
Qed.

(** Given functions and a limit, [settle] never has more than that many
    of them in flight, however many are queued. *)
Lemma settle_respects_limit (fuel : nat) (w : world) (sched : schedule)
      (fs : list (unit -> async value)) (c : positive) (tick : nat)
      (m : machine) :
  settle fuel w sched (map AFunction fs) (Some c) tick = Some m ->
  peak m <= Pos.to_nat c.
Proof.
  unfold settle. intros Hloop.
  apply loop_bounded in Hloop; [apply Hloop |].
  apply refill_bounded.
  assert (Hlim : Forall limited (map enlist (map AFunction fs)))
    by (rewrite map_map; apply Forall_forall; intros s Hin;
        apply in_map_iff in Hin as (f & <- & _); exact I).
  unfold bounded. cbn [slots peak].
  rewrite (in_flight_limited Hlim).
  rewrite (active_queued fs). repeat split; [exact Hlim | lia | lia].
Qed.

Example five_functions_one_at_a_time :
  option_map (fun m => (peak m, outcomes (slots m)))
             (settle 20 healthy last_first
                     (map (fun task => AFunction (snd task)) (tasks bare))
                     (Some 1%positive) 0)
  = Some (1, [Fulfilled VUndefined;
              Fulfilled VUndefined;
              Fulfilled (VObject [("rows", VArray [])]);
              Fulfilled VUndefined;
              Fulfilled VUndefined]).
Proof. vm_compute. reflexivity. Qed.

(** * Further properties of the metric functions *)

(** X1: a metric function is fulfilled exactly when every statement it
    sent went through: every read came back with a row and no write was
    rejected. *)
Theorem metric_fulfilled_iff_answered
        (w : world) (tick : nat) (m : async value) :
  metric m ->
  is_fulfilled (result (exec w m tick))
  = forallb (answered w) (events (exec w m tick)).
Proof.
  intros [-> | [-> | [[type ->] | [[status ->] | ->]]]]; unfold_metric;
    try destruct (given type); try destruct (given status);
    by_replies w; reflexivity.
Qed.

Lemma metric_fulfilled_iff_answered_witness :
  is_fulfilled (result (exec (failing [(COUNT_PINS, VError "down")])
                             (updatePinsCount (Some "Pinned")) 0))
  = false
  /\ forallb (answered (failing [(COUNT_PINS, VError "down")]))
             (events (exec (failing [(COUNT_PINS, VError "down")])
                           (updatePinsCount (Some "Pinned")) 0))
     = false.
Proof.
  pose proof (@metric_fulfilled_iff_answered
                (failing [(COUNT_PINS, VError "down")]) 0
                (updatePinsCount (Some "Pinned"))) as H.
  rewrite <- H.
  - split; reflexivity.
  - unfold metric. eauto 8.
Defined.

(** X2: a rejected metric function stopped at the statement that failed:
    everything sent before it went through, it is the last statement
    sent, and the error is the reason that statement was rejected with
    or, for a read that came back empty, an [Error]. *)
Theorem metric_stops_at_first_failure
        (w : world) (tick : nat) (m : async value) (e : value) :
  metric m ->
  result (exec w m tick) = Rejected e ->
  exists before failed,
    events (exec w m tick) = before ++ [failed]
    /\ forallb (answered w) before = true
    /\ answered w failed = false
    /\ blamed w e failed.
Proof.
  intros [-> | [-> | [[type ->] | [[status ->] | ->]]]]; unfold_metric;
    try destruct (given type); try destruct (given status);
    by_replies w; intros Hrej; try discriminate; injection Hrej as <-;
    first
      [ exists []; eexists; split; [reflexivity |]
      | eexists [_]; eexists; split; [reflexivity |]
      | eexists [_; _]; eexists; split; [reflexivity |]
      | eexists [_; _; _]; eexists; split; [reflexivity |] ];
    by_replies w; repeat split; eauto.
Qed.

Lemma metric_stops_at_first_failure_witness :
  exists before failed,
    events (exec (failing [(COUNT_PINS, VError "down")])
                 (updatePinsCount (Some "Pinned")) 0)
    = before ++ [failed]
    /\ forallb (answered (failing [(COUNT_PINS, VError "down")])) before = true
    /\ answered (failing [(COUNT_PINS, VError "down")]) failed = false
    /\ blamed (failing [(COUNT_PINS, VError "down")]) (VError "down") failed.
Proof.
  apply (@metric_stops_at_first_failure
           (failing [(COUNT_PINS, VError "down")]) 0
           (updatePinsCount (Some "Pinned")) (VError "down")).
  - unfold metric. eauto 8.
  - reflexivity.
Defined.

(** X3: whatever the databases answer, a metric function sends at most
    four statements, reads and writes in turn: every write is
    [UPDATE_METRIC] with a name and a value, and the value is the
    [total] of the first row of the read sent just before it, as it is
    or through [String]. *)
Theorem metric_reads_then_writes
        (w : world) (tick : nat) (m : async value) :
  metric m ->
  paired w (events (exec w m tick))
  /\ List.length (events (exec w m tick)) <= 4.
Proof.
  intros [-> | [-> | [[type ->] | [[status ->] | ->]]]]; unfold_metric;
    try destruct (given type); try destruct (given status);
    by_replies w; repeat split; eauto; lia.
Qed.

Lemma metric_reads_then_writes_witness :
  paired healthy (events (exec healthy (updatePinsCount (Some "Pinned")) 0))
  /\ List.length (events (exec healthy (updatePinsCount (Some "Pinned")) 0))
     <= 4.
Proof.
  apply (@metric_reads_then_writes healthy 0 (updatePinsCount (Some "Pinned"))).
  unfold metric. eauto 8.
Defined.

Lemma suffix_inj (a b c : string) : a +++ c = b +++ c -> a = b.
Proof.
  revert b. induction a as [| x a IH]; intros [| y b] H; cbn in H.
  - reflexivity.
  - apply (f_equal String.length) in H. cbn in H.
    rewrite length_append in H. lia.
  - apply (f_equal String.length) in H. cbn in H.
    rewrite length_append in H. lia.
  - injection H as -> H. f_equal. now apply IH.
Qed.

(** X4: every metric function writes under its own names only: whatever
    the databases answer, [updateUsersCount] never writes any metric but
    "users_total", and likewise for the others; with a category, the
    only names are the per-category one and, for pins, "pins_total". *)
Theorem metric_writes_own_names (c : string) :
  own_names updateUsersCount ["users_total"]
  /\ own_names updateContentRootDagSizeSum ["content_bytes_total"]
  /\ own_names (updateUploadsCount None) ["uploads_total"]
  /\ own_names (updateUploadsCount (Some c))
               ["uploads_" +++ toLowerCase c +++ "_total"; "uploads_total"]
  /\ own_names (updatePinsCount None) ["pins_total"]
  /\ own_names (updatePinsCount (Some c))
               ["pins_" +++ toLowerCase c +++ "_total"; "pins_total"]
  /\ own_names updatePinRequestsCount ["pin_requests_total"].
Proof.
  unfold own_names.
  repeat split; intros w tick; unfold_metric;
    try (destruct (given_cases (Some c)) as [-> | (s & [= <-] & _ & ->)]);
    by_replies w;
    repeat (apply Forall_cons || apply Forall_nil);
    step_run; rewrite ?String.eqb_refl, ?orb_true_r; reflexivity.
Qed.

(** X6: the counts are written as the databases gave them, with no
    check: a first row without a [total] column makes the count
    functions write [undefined], and a sum that is [null], as over no
    content at all, is written by [updateContentRootDagSizeSum] as the
    four letters "null". *)
Theorem missing_total_is_written_as_it_comes
        (w : world) (tick : nat) (r : row) (rows : list row) :
  (roPg w COUNT_USERS [] = Resolved (r :: rows) ->
   get "total" r = VUndefined ->
   writes (events (exec w updateUsersCount tick))
   = [(UPDATE_METRIC, [VStr "users_total"; VUndefined])])
  /\ (roPg w COUNT_PIN_REQUESTS [] = Resolved (r :: rows) ->
      get "total" r = VUndefined ->
      writes (events (exec w updatePinRequestsCount tick))
      = [(UPDATE_METRIC, [VStr "pin_requests_total"; VUndefined])])
  /\ (roPg w SUM_CONTENT_DAG_SIZE [] = Resolved (r :: rows) ->
      get "total" r = VNull ->
      writes (events (exec w updateContentRootDagSizeSum tick))
      = [(UPDATE_METRIC, [VStr "content_bytes_total"; VStr "null"])]).
Proof.
  repeat split; intros Hread Htotal; unfold_metric;
    by_replies w; rewrite Htotal; reflexivity.
Qed.

Lemma missing_total_is_written_as_it_comes_witness :
  writes (events (exec columnless updateUsersCount 0))
  = [(UPDATE_METRIC, [VStr "users_total"; VUndefined])]
  /\ writes (events (exec empty_content updateContentRootDagSizeSum 0))
     = [(UPDATE_METRIC, [VStr "content_bytes_total"; VStr "null"])].
Proof.
  split.
  - exact (proj1 (@missing_total_is_written_as_it_comes
                    columnless 0 [("count", VStr "7")] [])
                 eq_refl eq_refl).
  - exact (proj2 (proj2 (@missing_total_is_written_as_it_comes
                           empty_content 0 [("total", VNull)] []))
                 eq_refl eq_refl).
Defined.

(** * Further properties of the job *)

Section Running.

Variable w : world.

Lemma runs_exec {A : Type} (o : outcome A) (m : async A) :
  forall xs tick,
    runs w o xs m ->
    result (exec w m tick) = o /\ map shape (events (exec w m tick)) = xs.
Proof.
  induction m as [a | e | h sql params k IH | k IH | line k IH];
    intros xs tick H; cbn [runs exec result events map] in *.
  - destruct H as [-> ->]. auto.
  - destruct H as [-> ->]. auto.
  - destruct xs as [| x xs]; [contradiction |]. destruct H as [-> H].
    destruct (IH _ _ tick H) as [Ho Hxs]. cbn [shape]. now rewrite Hxs.
  - eapply IH, H.
  - destruct xs as [| x xs]; [contradiction |]. destruct H as [-> H].
    destruct (IH _ tick H) as [Ho Hxs]. cbn [shape]. now rewrite Hxs.
Qed.

Lemma runs_bind {A B : Type} (m : async A) (f : A -> async B)
      (o : outcome B) (a : A) :
  forall xs ys,
    runs w (Fulfilled a) xs m ->
    runs w o ys (f a) ->
    runs w o (xs ++ ys) (bind m f).
Proof.
  induction m as [a0 | e | h sql params k IH | k IH | line k IH];
    intros xs ys H Hf; cbn [runs bind] in *.
  - destruct H as [[= ->] ->]. exact Hf.
  - destruct H as [[=] _].
  - destruct xs as [| x xs]; [contradiction |]. destruct H as [-> H].
    cbn [app]. split; [reflexivity |]. now apply IH.
  - intros t. apply IH; [apply H | exact Hf].
  - destruct xs as [| x xs]; [contradiction |]. destruct H as [-> H].
    cbn [app]. split; [reflexivity |]. now apply IH.
Qed.

Lemma runs_finally {A : Type} (m : async A) (f : async unit)
      (o : outcome A) (ys : list event) :
  runs w (Fulfilled tt) ys f ->
  forall xs, runs w o xs m -> runs w o (xs ++ ys) (finally_ m f).
Proof.
  intros Hf.
  induction m as [a | e | h sql params k IH | k IH | line k IH];
    intros xs H; cbn [runs finally_] in *.
  - destruct H as [-> ->]. cbn [app].
    rewrite <- (app_nil_r ys). eapply runs_bind; [exact Hf |].
    split; reflexivity.
  - destruct H as [-> ->]. cbn [app].
    rewrite <- (app_nil_r ys). eapply runs_bind; [exact Hf |].
    split; reflexivity.
  - destruct xs as [| x xs]; [contradiction |]. destruct H as [-> H].
    cbn [app]. split; [reflexivity |]. now apply IH.
  - intros t. apply IH, H.
  - destruct xs as [| x xs]; [contradiction |]. destruct H as [-> H].
    cbn [app]. split; [reflexivity |]. now apply IH.
Qed.

Lemma runs_withTimeLog (name : string) (fn : unit -> async value)
      (o : outcome value) (xs : list event) :
  runs w o xs (fn tt) ->
  runs w o (xs ++ [Logged ""]) (withTimeLog name fn).
Proof.
  intros H start. apply runs_finally; [| exact H].
  intros stop. cbn [runs]. auto.
Qed.

(** A metric function reads no clock and logs nothing: its run alone is
    the run it has in any company. *)
Lemma metric_runs (m : async value) :
  metric m ->
  runs w (result (exec w m 0)) (events (exec w m 0)) m.
Proof.
  intros [-> | [-> | [[type ->] | [[status ->] | ->]]]]; unfold_metric;
    try destruct (given type); try destruct (given status);
    repeat (cbn [runs exec bind query answer result events no_rows total];
            match goal with
            | |- context [roPg w ?sql ?ps] =>
                destruct (roPg w sql ps) as [[| ? ?] |]
            | |- context [rwPg w ?sql ?ps] =>
                destruct (rwPg w sql ps) as [? |]
            end);
    cbn [runs]; repeat split.
Qed.

Lemma task_runs (task : string * (unit -> async value)) :
  metric (snd task tt) ->
  runs w (alone w task) (script w task) (withTimeLog (fst task) (snd task)).
Proof.
  intros Hm.
  pose proof (@runs_withTimeLog (fst task) (snd task) _ _ (metric_runs Hm))
    as H.
  destruct (@runs_exec _ _ _ _ 0 H) as [_ Hxs].
  unfold script, alone. rewrite Hxs. exact H.
Qed.

Lemma advance_runs (o : outcome value) (m : async value) :
  forall xs tick,
    runs w o xs m ->
    exists rest,
      xs = map shape (emitted (advance w m tick)) ++ rest
      /\ owes w rest (Started false (state (advance w m tick))).
Proof.
  induction m as [a | e | h sql params k IH | k IH | line k IH];
    intros xs tick H; cbn [runs advance state emitted map app] in *.
  - destruct H as [-> ->]. exists []. split; [reflexivity |].
    eexists _, (Fulfilled a). split; reflexivity.
  - destruct H as [-> ->]. exists []. split; [reflexivity |].
    eexists _, (Rejected e). split; reflexivity.
  - destruct xs as [| x xs]; [contradiction |]. destruct H as [-> H].
    exists xs. split; [reflexivity |].
    eexists _, o. split; [reflexivity | exact H].
  - apply IH, H.
  - destruct xs as [| x xs]; [contradiction |]. destruct H as [-> H].
    destruct (IH _ tick H) as (rest & -> & Howes).
    exists rest. split; [reflexivity | exact Howes].
Qed.

End Running.

Section Interleaving.

Variable w : world.

Lemma call_all_owes (ts : list (string * (unit -> async value))) :
  Forall (fun task => metric (snd task tt)) ts ->
  forall tick ps evs tick',
    call_all w ts tick = (ps, evs, tick') ->
    exists ledger,
      Forall2 (owes w) ledger (map enlist ps)
      /\ Permutation (map shape evs ++ List.concat ledger)
                     (List.concat (map (script w) ts)).
Proof.
  induction 1 as [| [name fn] ts Hm Hts IH]; intros tick ps evs tick' Hcall.
  - injection Hcall as <- <- <-. exists []. split; constructor.
  - rewrite call_all_cons in Hcall. cbv zeta in Hcall.
    destruct (call_all w ts (after (advance w (withTimeLog name fn) tick)))
      as [[ps0 evs0] tick0] eqn:Hrest.
    apply pair_equal_spec in Hcall as [Hcall <-].
    apply pair_equal_spec in Hcall as [<- <-].
    destruct (IH _ _ _ _ Hrest) as (ledger & Howes & Hperm).
    destruct (@advance_runs w _ _ _ tick (@task_runs w (name, fn) Hm))
      as (rest & Hscript & Hrest').
    cbn [fst snd] in Hscript, Hrest'.
    exists (rest :: ledger). split.
    + cbn [map enlist]. constructor; assumption.
    + cbn [map List.concat]. rewrite Hscript, map_app, <- !app_assoc.
      apply Permutation_app_head.
      rewrite Permutation_app_swap_app. apply Permutation_app_head.
      exact Hperm.
Qed.

Lemma ledger_replace (ledger : list (list event)) :
  forall i e rest,
    nth_error ledger i = Some (e ++ rest) ->
    Permutation (List.concat ledger) (e ++ List.concat (replace i rest ledger)).
Proof.
  induction ledger as [| xs ledger IH]; intros [| i] e rest Hnth;
    cbn [nth_error replace List.concat] in *; try discriminate.
  - injection Hnth as ->. now rewrite app_assoc.
  - rewrite (IH _ _ _ Hnth). apply Permutation_app_swap_app.
Qed.

Lemma owes_started (ledger : list (list event)) (ss : list slot) :
  Forall2 (owes w) ledger ss ->
  Forall (fun s => exists limited p, s = Started limited p) ss.
Proof.
  induction 1 as [| xs s ledger ss (p & o & -> & _) _ IH]; constructor; eauto.
Qed.

Lemma owes_settled (ledger : list (list event)) (ss : list slot) :
  Forall2 (owes w) ledger ss ->
  pending_from 0 ss = [] ->
  List.concat ledger = [].
Proof.
  intros Howes Hnone. apply pending_from_nil in Hnone.
  induction Howes as [| xs s ledger ss (p & o & -> & Hp) _ IH];
    [reflexivity |].
  cbn [forallb] in Hnone. apply andb_true_iff in Hnone as [Hs Hnone].
  destruct p as [h sql params k | out]; [discriminate |].
  subst xs. cbn [List.concat app]. auto.
Qed.

Lemma deliver_interleaves (evs target : list event) (i : nat) (m : machine) :
  interleaves w evs target m -> interleaves w evs target (deliver w i m).
Proof.
  intros (ledger & Howes & Hperm). unfold deliver.
  destruct (nth_error (slots m) i) as [[f | l [h sql params k | out]] |]
    eqn:Hnth; try (exists ledger; split; assumption).
  destruct (Forall2_nth_error_r Howes _ Hnth)
    as (xs & Hxs & p & o & Heq & Hruns).
  injection Heq as -> <-.
  destruct (@advance_runs w _ _ _ (clk m) Hruns) as (rest & -> & Hrest).
  exists (replace i rest ledger). cbn [slots trace]. split.
  - apply Forall2_replace; assumption.
  - rewrite <- Hperm, (@ledger_replace ledger i _ _ Hxs).
    rewrite !app_assoc, !map_app, <- !app_assoc. reflexivity.
Qed.

Lemma refill_interleaves (concurrency : option positive)
      (evs target : list event) (m : machine) :
  interleaves w evs target m ->
  interleaves w evs target (refill w concurrency m).
Proof.
  intros (ledger & Howes & Hperm).
  exists ledger. unfold refill.
  rewrite (fill_started w _ _ (owes_started Howes)).
  cbn [slots trace]. rewrite app_nil_r. split; assumption.
Qed.

Lemma loop_interleaves (concurrency : option positive) (sched : schedule)
      (evs target : list event) :
  forall fuel turn m m',
    interleaves w evs target m ->
    loop fuel w concurrency sched turn m = Some m' ->
    Permutation (map shape (evs ++ trace m')) target.
Proof.
  induction fuel as [| fuel IH]; intros turn m m' Hm Hloop;
    cbn [loop] in Hloop;
    destruct (pending_from 0 (slots m)) as [| i0 ids] eqn:Hids;
    try discriminate.
  - injection Hloop as <-. destruct Hm as (ledger & Howes & Hperm).
    rewrite (owes_settled Howes Hids), app_nil_r in Hperm. exact Hperm.
  - injection Hloop as <-. destruct Hm as (ledger & Howes & Hperm).
    rewrite (owes_settled Howes Hids), app_nil_r in Hperm. exact Hperm.
  - eapply IH; [| exact Hloop].
    apply refill_interleaves, deliver_interleaves, Hm.
Qed.

End Interleaving.

Lemma updateMetrics_unfolded (fuel : nat) (cfg : config) (w : world)
      (sched : schedule) :
  most_queries * List.length (tasks cfg) <= fuel ->
  exists promises evs tick m j,
    call_all w (tasks cfg) 0 = (promises, evs, tick)
    /\ settle fuel w sched (promises ++ [AValue (options cfg)]) None tick
       = Some m
    /\ updateMetrics fuel cfg w sched = Some j
    /\ results j = outcomes (slots m)
    /\ output j
       = (evs ++ trace m)
         ++ map ConsoleError (reasons (results j))
         ++ (match thrown j with
             | Some _ => []
             | None => [Logged done]
             end).
Proof.
  intros Hfuel.
  destruct (@updateMetrics_runs fuel cfg w sched Hfuel) as (j0 & Hrun & _).
  unfold updateMetrics in *.
  destruct (call_all w (tasks cfg) 0) as [[promises evs] tick] eqn:Hcall.
  destruct (settle fuel w sched (promises ++ [AValue (options cfg)]) None tick)
    as [m |] eqn:Hsettle; [| discriminate].
  destruct (reduce (outcomes (slots m)) VUndefined) as [error errs] eqn:Hred.
  destruct (reduce_spec (outcomes (slots m)) VUndefined) as [Herrs _].
  rewrite Hred in Herrs. cbn [snd] in Herrs.
  exists promises, evs, tick, m. eexists.
  split; [reflexivity |]. split; [exact Hsettle |].
  split; [reflexivity |]. split; [reflexivity |].
  cbn [output results thrown]. rewrite Herrs, <- app_assoc.
  destruct (truthy error); reflexivity.
Qed.

Lemma updateMetrics_interleaves (fuel : nat) (cfg : config) (w : world)
      (sched : schedule) :
  most_queries * List.length (tasks cfg) <= fuel ->
  exists j before,
    updateMetrics fuel cfg w sched = Some j
    /\ output j
       = before
         ++ map ConsoleError (reasons (results j))
         ++ (match thrown j with
             | Some _ => []
             | None => [Logged done]
             end)
    /\ Permutation (map shape before)
                   (List.concat (map (script w) (tasks cfg))).
Proof.
  intros Hfuel.
  destruct (@updateMetrics_unfolded fuel cfg w sched Hfuel)
    as (promises & evs & tick & m & j & Hcall & Hsettle & Hrun & _ & Hout).
  exists j, (evs ++ trace m). repeat split; try assumption.
  destruct (@call_all_owes w _ (tasks_metric cfg) _ _ _ _ Hcall)
    as (ledger & Howes & Hperm).
  unfold settle in Hsettle.
  eapply loop_interleaves; [| exact Hsettle].
  apply refill_interleaves.
  exists (ledger ++ [[]]). cbn [slots trace]. split.
  - rewrite map_app. apply Forall2_app; [exact Howes |].
    repeat constructor.
    eexists _, (Fulfilled (options cfg)). split; reflexivity.
  - rewrite concat_app. cbn [List.concat]. now rewrite !app_nil_r.
Qed.

(** X7: up to the text of the timing lines, what the job emits before it
    reduces the results is a rearrangement of what its tasks emit when
    each is run alone under [withTimeLog]: running them together drops
    no statement and no line, and adds or repeats none.  After it come
    the [console.error] lines and, on success, the completion marker. *)
Theorem job_emits_what_its_tasks_emit
        (fuel : nat) (cfg : config) (w : world) (sched : schedule) :
  most_queries * List.length (tasks cfg) <= fuel ->
  exists j before,
    updateMetrics fuel cfg w sched = Some j
    /\ output j
       = before
         ++ map ConsoleError (reasons (results j))
         ++ (match thrown j with
             | Some _ => []
             | None => [Logged done]
             end)
    /\ Permutation (map shape before)
                   (List.concat (map (script w) (tasks cfg))).
Proof.
  exact (@updateMetrics_interleaves fuel cfg w sched).
Qed.

Lemma job_emits_what_its_tasks_emit_witness :
  exists j before,
    updateMetrics 20 bare (failing [(COUNT_USERS, VError "boom")]) last_first
    = Some j
    /\ output j
       = before
         ++ map ConsoleError (reasons (results j))
         ++ (match thrown j with
             | Some _ => []
             | None => [Logged done]
             end)
    /\ Permutation
         (map shape before)
         (List.concat
            (map (script (failing [(COUNT_USERS, VError "boom")]))
                 (tasks bare))).
Proof.
  apply (@job_emits_what_its_tasks_emit
           20 bare (failing [(COUNT_USERS, VError "boom")]) last_first).
  vm_compute; lia.
Defined.

(** ** Counting in the output *)

Section Counting.

Variable f : event -> bool.
Hypothesis f_shape : forall ev, f (shape ev) = f ev.

Lemma Permutation_filter_length (l l' : list event) :
  Permutation l l' ->
  List.length (filter f l) = List.length (filter f l').
Proof.
  induction 1 as [| x l l' _ IH | x y l | l l' l'' _ IH1 _ IH2];
    cbn [filter]; try destruct (f x); try destruct (f y);
    cbn [List.length]; congruence.
Qed.

Lemma filter_shape_length (l : list event) :
  List.length (filter f (map shape l)) = List.length (filter f l).
Proof.
  induction l as [| x l IH]; [reflexivity |].
  cbn [map filter]. rewrite f_shape.
  destruct (f x); cbn [List.length]; congruence.
Qed.

End Counting.

Lemma exec_no_console_error {A : Type} (w : world) (m : async A) :
  forall tick,
    forallb (fun ev => negb (is_console_error ev)) (events (exec w m tick))
    = true.
Proof.
  induction m as [a | e | h sql params k IH | k IH | line k IH];
    intros tick; cbn [exec events forallb is_console_error negb andb]; auto.
Qed.

Lemma script_alone (w : world) (task : string * (unit -> async value)) :
  metric (snd task tt) ->
  script w task = events (exec w (snd task tt) 0) ++ [Logged ""].
Proof.
  intros Hm.
  pose proof (@runs_withTimeLog w (fst task) (snd task) _ _
                                (@metric_runs w _ Hm)) as H.
  destruct (@runs_exec w _ _ _ _ 0 H) as [_ Hxs]. exact Hxs.
Qed.

Lemma metric_silent (w : world) (tick : nat) (m : async value) :
  metric m -> filter is_line (events (exec w m tick)) = [].
Proof.
  intros [-> | [-> | [[type ->] | [[status ->] | ->]]]]; unfold_metric;
    try destruct (given type); try destruct (given status);
    repeat (cbn [exec bind query answer result events no_rows total filter
                 is_line];
            match goal with
            | |- context [roPg w ?sql ?ps] =>
                destruct (roPg w sql ps) as [[| ? ?] |]
            | |- context [rwPg w ?sql ?ps] =>
                destruct (rwPg w sql ps) as [? |]
            end);
    reflexivity.
Qed.

Lemma scripts_lines (w : world) (ts : list (string * (unit -> async value))) :
  Forall (fun task => metric (snd task tt)) ts ->
  List.length (filter is_line (List.concat (map (script w) ts)))
  = List.length ts.
Proof.
  induction 1 as [| task ts Hm _ IH]; [reflexivity |].
  cbn [map List.concat]. rewrite filter_app, length_app, IH.
  rewrite (script_alone w task Hm), filter_app, (metric_silent w 0 Hm).
  reflexivity.
Qed.

Lemma scripts_no_console_error (w : world)
      (ts : list (string * (unit -> async value))) :
  Forall (fun ev => is_console_error ev = false)
         (List.concat (map (script w) ts)).
Proof.
  induction ts as [| task ts IH]; [constructor |].
  cbn [map List.concat]. apply Forall_app. split; [| exact IH].
  unfold script. apply Forall_forall. intros ev Hin.
  apply in_map_iff in Hin as (ev0 & <- & Hin).
  pose proof (exec_no_console_error w (withTimeLog (fst task) (snd task)) 0)
    as Hall.
  rewrite forallb_forall in Hall. specialize (Hall _ Hin).
  destruct ev0; cbn in *; congruence.
Qed.

Lemma no_console_error_filter (l : list event) :
  Forall (fun ev => is_console_error ev = false) (map shape l) ->
  filter is_console_error l = [].
Proof.
  induction l as [| ev l IH]; intros Hall; [reflexivity |].
  cbn [map] in Hall. inversion Hall as [| x xs Hev Hrest]; subst.
  cbn [filter]. destruct ev; cbn in *; try discriminate; auto.
Qed.

(** X8: in every run of the job one timing line is logged for each task,
    as many lines as there are tasks, whether the tasks are fulfilled or
    rejected, and all of them before anything is written with
    [console.error]. *)
Theorem every_task_logs_its_time_once
        (fuel : nat) (cfg : config) (w : world) (sched : schedule) :
  most_queries * List.length (tasks cfg) <= fuel ->
  exists j before,
    updateMetrics fuel cfg w sched = Some j
    /\ output j
       = before
         ++ map ConsoleError (reasons (results j))
         ++ (match thrown j with
             | Some _ => []
             | None => [Logged done]
             end)
    /\ List.length (filter is_line before)
       = 5 + List.length (UPLOAD_TYPES cfg) + List.length (PIN_STATUSES cfg)
    /\ forallb (fun ev => negb (is_console_error ev)) before = true.
Proof.
  intros Hfuel.
  destruct (@updateMetrics_interleaves fuel cfg w sched Hfuel)
    as (j & before & Hrun & Hout & Hperm).
  exists j, before. repeat split; try assumption.
  - rewrite <- length_tasks, <- (scripts_lines w (tasks_metric cfg)).
    rewrite <- (Permutation_filter_length is_line Hperm).
    symmetry. apply filter_shape_length. intros []; reflexivity.
  - apply forallb_forall. intros ev Hin.
    pose proof (scripts_no_console_error w (tasks cfg)) as Hnone.
    apply (Permutation_Forall (Permutation_sym Hperm)) in Hnone.
    rewrite Forall_forall in Hnone.
    specialize (Hnone (shape ev) (in_map shape _ _ Hin)).
    destruct ev; cbn in *; congruence.
Qed.

Lemma every_task_logs_its_time_once_witness :
  exists j before,
    updateMetrics 32 typical (failing [(COUNT_PINS, VNull)]) last_first
    = Some j
    /\ output j
       = before
         ++ map ConsoleError (reasons (results j))
         ++ (match thrown j with
             | Some _ => []
             | None => [Logged done]
             end)
    /\ List.length (filter is_line before) = 8
    /\ forallb (fun ev => negb (is_console_error ev)) before = true.
Proof.
  apply (@every_task_logs_its_time_once
           32 typical (failing [(COUNT_PINS, VNull)]) last_first).
  vm_compute; lia.
Defined.

(** X9: the results of the job, the error it throws and what it writes
    with [console.error] do not depend on the order in which the
    databases reply, nor on the fuel given to the loop beyond what it
    needs. *)
Theorem results_do_not_depend_on_reply_order
        (fuel fuel' : nat) (cfg : config) (w : world)
        (sched sched' : schedule) :
  most_queries * List.length (tasks cfg) <= fuel ->
  most_queries * List.length (tasks cfg) <= fuel' ->
  exists j j',
    updateMetrics fuel cfg w sched = Some j
    /\ updateMetrics fuel' cfg w sched' = Some j'
    /\ results j = results j'
    /\ thrown j = thrown j'
    /\ filter is_console_error (output j)
       = filter is_console_error (output j').
Proof.
  intros Hfuel Hfuel'.
  destruct (@updateMetrics_interleaves fuel cfg w sched Hfuel)
    as (j & before & Hrun & Hout & Hperm).
  destruct (@updateMetrics_interleaves fuel' cfg w sched' Hfuel')
    as (j' & before' & Hrun' & Hout' & Hperm').
  destruct (@updateMetrics_runs fuel cfg w sched Hfuel)
    as (j0 & Hrun0 & _ & _ & _ & _ & Hres & Hthrown & _).
  destruct (@updateMetrics_runs fuel' cfg w sched' Hfuel')
    as (j0' & Hrun0' & _ & _ & _ & _ & Hres' & Hthrown' & _).
  rewrite Hrun in Hrun0. injection Hrun0 as <-.
  rewrite Hrun' in Hrun0'. injection Hrun0' as <-.
  assert (Hsame : results j = results j') by congruence.
  assert (Hsame' : thrown j = thrown j') by congruence.
  exists j, j'. repeat split; try assumption.
  assert (Hquiet : forall l,
             Permutation (map shape l)
                         (List.concat (map (script w) (tasks cfg))) ->
             filter is_console_error l = []).
  { intros l Hl. apply no_console_error_filter.
    apply (Permutation_Forall (Permutation_sym Hl)).
    apply scripts_no_console_error. }
  rewrite Hout, Hout', !filter_app, (Hquiet _ Hperm), (Hquiet _ Hperm').
  now rewrite Hsame, Hsame'.
Qed.

Lemma results_do_not_depend_on_reply_order_witness :
  exists j j',
    updateMetrics 20 bare (failing [(COUNT_UPLOADS, VError "boom")]) in_order
    = Some j
    /\ updateMetrics 25 bare (failing [(COUNT_UPLOADS, VError "boom")])
                     last_first
       = Some j'
    /\ results j = results j'
    /\ thrown j = thrown j'
    /\ filter is_console_error (output j)
       = filter is_console_error (output j').
Proof.
  apply (@results_do_not_depend_on_reply_order
           20 25 bare (failing [(COUNT_UPLOADS, VError "boom")])
           in_order last_first); vm_compute; lia.
Defined.

(** ** A database in working order *)

Lemma healthy_sound : sound healthy.
Proof.
  split; intros sql params; cbn [roPg rwPg healthy]; eauto.
  destruct (sql =? SUM_CONTENT_DAG_SIZE); eauto.
Qed.

Lemma sound_fulfilled (w : world) (tick : nat) (m : async value) :
  sound w -> metric m -> is_fulfilled (result (exec w m tick)) = true.
Proof.
  intros Hsound [-> | [-> | [[type ->] | [[status ->] | ->]]]];
    unfold_metric;
    try destruct (given type); try destruct (given status);
    by_sound w Hsound; reflexivity.
Qed.

Lemma sound_pins_total (w : world) :
  sound w ->
  let count m :=
    List.length (filter (writes_name "pins_total") (events (exec w m 0))) in
  count updateUsersCount = 0
  /\ count updateContentRootDagSizeSum = 0
  /\ (forall type, count (updateUploadsCount type) = 0)
  /\ (forall status, count (updatePinsCount status) = 1)
  /\ count updatePinRequestsCount = 0.
Proof.
  intros Hsound count. subst count. cbv beta.
  repeat split; try intros type; unfold_metric;
    try (destruct (given_cases type) as [-> | (c & -> & _ & ->)]);
    by_sound w Hsound; cbn [filter writes_name writes_metric snd]; simpl;
    try match goal with
        | |- context [toLowerCase ?s +++ "_total" =? "total"] =>
            rewrite (category_name_not_total "" s
                     : (toLowerCase s +++ "_total" =? "total") = false)
        end;
    reflexivity.
Qed.

Lemma script_pins_total (w : world) (task : string * (unit -> async value)) :
  metric (snd task tt) ->
  List.length (filter (writes_name "pins_total") (script w task))
  = List.length (filter (writes_name "pins_total")
                        (events (exec w (snd task tt) 0))).
Proof.
  intros Hm. rewrite (script_alone w task Hm), filter_app, length_app.
  cbn [filter writes_name List.length]. lia.
Qed.

Lemma scripts_pins_total (w : world) (cfg : config) :
  sound w ->
  List.length (filter (writes_name "pins_total")
                      (List.concat (map (script w) (tasks cfg))))
  = 1 + List.length (PIN_STATUSES cfg).
Proof.
  intros Hsound.
  destruct (sound_pins_total Hsound)
    as (Husers & Hcontent & Huploads & Hpins & Hrequests).
  assert (Hmap : forall (label : string -> string)
                        (fn : string -> async value) (n : nat)
                        (cs : list string),
             (forall c, metric (fn c)) ->
             (forall c,
                 List.length (filter (writes_name "pins_total")
                                     (events (exec w (fn c) 0))) = n) ->
             List.length
               (filter (writes_name "pins_total")
                       (List.concat
                          (map (script w)
                               (map (fun c => (label c, fun _ => fn c)) cs))))
             = n * List.length cs).
  { intros label fn n cs Hm Hn.
    induction cs as [| c cs IH]; [cbn; lia |].
    cbn [map List.concat List.length].
    rewrite filter_app, length_app, IH, script_pins_total by apply Hm.
    cbn [snd]. rewrite Hn. lia. }
  unfold tasks. rewrite !map_app, !concat_app, !filter_app, !length_app.
  rewrite (Hmap _ (fun t => updateUploadsCount (Some t)) 0)
    by (unfold metric; eauto 8).
  rewrite (Hmap _ (fun s => updatePinsCount (Some s)) 1)
    by (unfold metric; eauto 8).
  cbn [map List.concat]. rewrite !filter_app, !length_app.
  rewrite !script_pins_total by (cbn [snd]; unfold metric; eauto 8).
  cbn [snd filter List.length].
  rewrite Husers, Hcontent, Hrequests, (Huploads None), (Hpins None). lia.
Qed.

(** X10: against a database in working order (every read comes back
    with a row, no write is rejected) the job succeeds: every result is
    fulfilled, nothing is thrown and the run ends on the completion
    marker.  In such a run "pins_total" is written once for the overall
    count and once more for every pin status: one time plus the number of
    pin statuses. *)
Theorem sound_database_run
        (fuel : nat) (cfg : config) (w : world) (sched : schedule) :
  most_queries * List.length (tasks cfg) <= fuel ->
  sound w ->
  exists j,
    updateMetrics fuel cfg w sched = Some j
    /\ forallb is_fulfilled (results j) = true
    /\ thrown j = None
    /\ (exists before, output j = before ++ [Logged done])
    /\ List.length (filter (writes_name "pins_total") (output j))
       = 1 + List.length (PIN_STATUSES cfg).
Proof.
  intros Hfuel Hsound.
  destruct (@updateMetrics_interleaves fuel cfg w sched Hfuel)
    as (j & before & Hrun & Hout & Hperm).
  destruct (@updateMetrics_runs fuel cfg w sched Hfuel)
    as (j0 & Hrun0 & _ & _ & _ & _ & Hres & Hthrown & _).
  rewrite Hrun in Hrun0. injection Hrun0 as <-.
  assert (Hall : forallb is_fulfilled (results j) = true).
  { rewrite Hres, forallb_app. cbn [forallb is_fulfilled andb].
    rewrite andb_true_r. apply forallb_forall. intros o Hin.
    apply in_map_iff in Hin as (task & <- & Hin).
    pose proof (tasks_metric cfg) as Hm. rewrite Forall_forall in Hm.
    apply (sound_fulfilled 0 Hsound (Hm _ Hin)). }
  assert (Hnone : reasons (results j) = []).
  { clear - Hall. induction (results j) as [| [v | e] rs IH];
      cbn [forallb is_fulfilled andb reasons] in *; auto; discriminate. }
  rewrite Hnone in *. cbn [find map app] in *. rewrite Hthrown in Hout.
  exists j. repeat split; try assumption.
  - exists before. exact Hout.
  - rewrite Hout, filter_app, length_app.
    cbn [filter writes_name List.length].
    rewrite <- (scripts_pins_total cfg Hsound).
    rewrite <- (Permutation_filter_length (writes_name "pins_total") Hperm).
    rewrite filter_shape_length by (intros []; reflexivity). lia.
Qed.

Lemma sound_database_run_witness :
  exists j,
    updateMetrics 32 typical healthy last_first = Some j
    /\ forallb is_fulfilled (results j) = true
    /\ thrown j = None
    /\ (exists before, output j = before ++ [Logged done])
    /\ List.length (filter (writes_name "pins_total") (output j)) = 2.
Proof.
  apply (@sound_database_run 32 typical healthy last_first).
  - vm_compute; lia.
  - exact healthy_sound.
Defined.

(** ** The clock *)

Lemma exec_ticks_le {A : Type} (w : world) (m : async A) :
  forall tick, tick <= ticks (exec w m tick).
Proof.
  induction m as [a | e | h sql params k IH | k IH | line k IH];
    intros tick; cbn [exec ticks]; auto.
  specialize (IH (clock w tick) (S tick)). lia.
Qed.

(** X11: the time [withTimeLog] reports is the difference of two
    readings of the clock, so it is as good as the clock: when the clock
    never goes back the elapsed time is not negative, and nothing in
    [withTimeLog] guards against a clock that does. *)
Theorem withTimeLog_elapsed_not_negative
        (name : string) (fn : unit -> async value) (w : world) (tick : nat) :
  (forall a b, a <= b -> (clock w a <= clock w b)%Z) ->
  exists elapsed,
    (0 <= elapsed)%Z
    /\ events (exec w (withTimeLog name fn) tick)
       = events (exec w (fn tt) (S tick))
         ++ [Logged (name +++ " took: " +++ number_to_string elapsed +++ "ms")].
Proof.
  intros Hclock.
  exists (clock w (ticks (exec w (fn tt) (S tick))) - clock w tick)%Z.
  split.
  - pose proof (exec_ticks_le w (fn tt) (S tick)) as Hle.
    specialize (Hclock tick (ticks (exec w (fn tt) (S tick)))). lia.
  - unfold withTimeLog. cbn [exec]. rewrite exec_finally. reflexivity.
Qed.

Lemma withTimeLog_elapsed_not_negative_witness :
  exists elapsed,
    (0 <= elapsed)%Z
    /\ events (exec healthy (withTimeLog "updateUsersCount"
                                         (fun _ => updateUsersCount)) 0)
       = events (exec healthy updateUsersCount 1)
         ++ [Logged ("updateUsersCount took: " +++ number_to_string elapsed
                     +++ "ms")].
Proof.
  apply (@withTimeLog_elapsed_not_negative
           "updateUsersCount" (fun _ => updateUsersCount) healthy 0).
  intros a b Hab. cbn [clock healthy]. lia.
Defined.

Example withTimeLog_backwards_clock :
  logged (events (exec backwards
                       (withTimeLog "updateUsersCount"
                                    (fun _ => updateUsersCount)) 0))
  = ["updateUsersCount took: -3ms"].
Proof. reflexivity. Qed.

(** ** Which statements go where *)

Lemma metric_in_keeping (w : world) (tick : nat) (m : async value) :
  metric m -> Forall in_keeping (events (exec w m tick)).
Proof.
  intros [-> | [-> | [[type ->] | [[status ->] | ->]]]]; unfold_metric;
    try destruct (given type); try destruct (given status);
    by_replies w; repeat (apply Forall_cons || apply Forall_nil);
    cbn [in_keeping read_statements In]; auto 12.
Qed.

Lemma scripts_in_keeping (w : world)
      (ts : list (string * (unit -> async value))) :
  Forall (fun task => metric (snd task tt)) ts ->
  Forall in_keeping (List.concat (map (script w) ts)).
Proof.
  induction 1 as [| task ts Hm _ IH]; [constructor |].
  cbn [map List.concat]. apply Forall_app. split; [| exact IH].
  rewrite (script_alone w task Hm). apply Forall_app. split.
  - apply metric_in_keeping, Hm.
  - repeat (apply Forall_cons || apply Forall_nil). exact I.
Qed.

Lemma in_keeping_shape (ev : event) : in_keeping (shape ev) -> in_keeping ev.
Proof. destruct ev; auto. Qed.

(** X12: the job keeps the two clients to their roles.  Everything it
    sends to [roPg] is one of its seven reads, everything it sends to
    [rwPg] is [UPDATE_METRIC] with a name and a value: the read database
    is never written to, whatever the databases answer. *)
Theorem job_keeps_clients_to_their_roles
        (fuel : nat) (cfg : config) (w : world) (sched : schedule) :
  most_queries * List.length (tasks cfg) <= fuel ->
  exists j,
    updateMetrics fuel cfg w sched = Some j
    /\ Forall in_keeping (output j).
Proof.
  intros Hfuel.
  destruct (@updateMetrics_interleaves fuel cfg w sched Hfuel)
    as (j & before & Hrun & Hout & Hperm).
  exists j. split; [exact Hrun |].
  rewrite Hout. apply Forall_app. split.
  - pose proof (scripts_in_keeping w (tasks_metric cfg)) as Hall.
    apply (Permutation_Forall (Permutation_sym Hperm)) in Hall.
    rewrite Forall_forall in *. intros ev Hin.
    apply in_keeping_shape, Hall, in_map, Hin.
  - apply Forall_app. split.
    + apply Forall_forall. intros ev Hin.
      apply in_map_iff in Hin as (e & <- & _). exact I.
    + destruct (thrown j);
        repeat (apply Forall_cons || apply Forall_nil); exact I.
Qed.

Lemma job_keeps_clients_to_their_roles_witness :
  exists j,
    updateMetrics 32 typical (failing [(COUNT_PINS, VNull)]) in_order = Some j
    /\ Forall in_keeping (output j).
Proof.
  apply (@job_keeps_clients_to_their_roles
           32 typical (failing [(COUNT_PINS, VNull)]) in_order).
  vm_compute; lia.
Defined.

(** ** An empty read database *)

Lemma barren_alone (w : world) (m : async value) :
  (forall sql params, roPg w sql params = Resolved []) ->
  metric m ->
  is_fulfilled (result (exec w m 0)) = false
  /\ filter is_write (events (exec w m 0)) = [].
Proof.
  intros Hbarren [-> | [-> | [[type ->] | [[status ->] | ->]]]];
    unfold_metric;
    try destruct (given type); try destruct (given status);
    repeat (cbn [exec bind query answer result events no_rows is_fulfilled
                 filter is_write];
            rewrite ?Hbarren);
    split; reflexivity.
Qed.

Lemma scripts_no_write (w : world)
      (ts : list (string * (unit -> async value))) :
  (forall sql params, roPg w sql params = Resolved []) ->
  Forall (fun task => metric (snd task tt)) ts ->
  List.length (filter is_write (List.concat (map (script w) ts))) = 0.
Proof.
  intros Hbarren. induction 1 as [| task ts Hm _ IH]; [reflexivity |].
  cbn [map List.concat]. rewrite filter_app, length_app, IH.
  rewrite (script_alone w task Hm), filter_app.
  rewrite (proj2 (@barren_alone w _ Hbarren Hm)). reflexivity.
Qed.

(** X13: when every read comes back with no row, the job writes nothing
    at all, every task is rejected, and the error thrown is that of the
    task listed first, "no rows returned counting users". *)
Theorem empty_database_run
        (fuel : nat) (cfg : config) (w : world) (sched : schedule) :
  most_queries * List.length (tasks cfg) <= fuel ->
  (forall sql params, roPg w sql params = Resolved []) ->
  exists j,
    updateMetrics fuel cfg w sched = Some j
    /\ thrown j = Some (VError "no rows returned counting users")
    /\ filter is_write (output j) = []
    /\ List.length (reasons (results j)) = List.length (tasks cfg).
Proof.
  intros Hfuel Hbarren.
  destruct (@updateMetrics_interleaves fuel cfg w sched Hfuel)
    as (j & before & Hrun & Hout & Hperm).
  destruct (@updateMetrics_runs fuel cfg w sched Hfuel)
    as (j0 & Hrun0 & _ & _ & _ & _ & Hres & Hthrown & _).
  rewrite Hrun in Hrun0. injection Hrun0 as <-.
  exists j. split; [exact Hrun |].
  assert (Hreasons : forall ts,
             Forall (fun task => metric (snd task tt)) ts ->
             List.length (reasons (map (alone w) ts ++ [Fulfilled (options cfg)]))
             = List.length ts).
  { induction 1 as [| task ts Hm _ IH]; [reflexivity |].
    cbn [map app]. unfold alone at 1.
    pose proof (proj1 (@barren_alone w _ Hbarren Hm)) as Hrej.
    destruct (result (exec w (snd task tt) 0)); [discriminate |].
    cbn [reasons List.length]. now rewrite IH. }
  split; [| split].
  - assert (Hfirst : alone w ("updateUsersCount", fun _ => updateUsersCount)
                     = Rejected (VError "no rows returned counting users")).
    { unfold alone, updateUsersCount.
      cbn [snd exec bind query answer result]. now rewrite Hbarren. }
    rewrite Hthrown, Hres. unfold tasks. cbn [map app].
    rewrite Hfirst. reflexivity.
  - apply length_zero_iff_nil.
    rewrite Hout, !filter_app, !length_app.
    rewrite <- (filter_shape_length is_write) by (intros []; reflexivity).
    rewrite (Permutation_filter_length is_write Hperm).
    rewrite (@scripts_no_write w _ Hbarren (tasks_metric cfg)).
    assert (Hquiet : forall rs,
               filter is_write (map ConsoleError rs) = [])
      by (induction rs; auto).
    rewrite Hquiet. destruct (thrown j); reflexivity.
  - rewrite Hres. apply Hreasons, tasks_metric.
Qed.

Lemma empty_database_run_witness :
  exists j,
    updateMetrics 32 typical barren last_first = Some j
    /\ thrown j = Some (VError "no rows returned counting users")
    /\ filter is_write (output j) = []
    /\ List.length (reasons (results j)) = List.length (tasks typical).
Proof.
  apply (@empty_database_run 32 typical barren last_first).
  - vm_compute; lia.
  - reflexivity.
Defined.

(** ** Categories that differ in case *)

(** X5: the per-category name depends on the category up to letter case
    only.  With the database in working order, two upload types that are
    not empty are written under the same name exactly when they are equal
    once lowercased, and so are two pin statuses: categories that differ
    in case alone share one metric, and the later write replaces the
    earlier. *)
Theorem category_names_collide_up_to_case
        (w : world) (tick : nat) (a b : string) :
  sound w ->
  a <> "" ->
  b <> "" ->
  (written_names (events (exec w (updateUploadsCount (Some a)) tick))
   = written_names (events (exec w (updateUploadsCount (Some b)) tick))
   <-> toLowerCase a = toLowerCase b)
  /\ (written_names (events (exec w (updatePinsCount (Some a)) tick))
      = written_names (events (exec w (updatePinsCount (Some b)) tick))
      <-> toLowerCase a = toLowerCase b).
Proof.
  intros Hsound Ha Hb.
  pose proof (given_nonempty Ha) as Hga.
  pose proof (given_nonempty Hb) as Hgb.
  unfold written_names, updateUploadsCount, updatePinsCount.
  rewrite Hga, Hgb.
  split; by_sound w Hsound; cbn [map snd hd]; (split; [| now intros ->]);
    intros Hsame; repeat (injection Hsame as Hsame);
    now apply suffix_inj in Hsame.
Qed.

Lemma category_names_collide_up_to_case_witness :
  written_names (events (exec healthy (updateUploadsCount (Some "Nft")) 0))
  = written_names (events (exec healthy (updateUploadsCount (Some "NFT")) 0)).
Proof.
  apply (proj1 (@category_names_collide_up_to_case
                  healthy 0 "Nft" "NFT" healthy_sound
                  ltac:(discriminate) ltac:(discriminate))).
  reflexivity.
Defined.


(** * Properties of the file row *)

Module FileRowItemFacts.
Import FileRowItem.

#[local] Unset Implicit Arguments.

Example highlight_cat :
  name (highlighted sample)
  = open_span +++ "cat" +++ close_span +++ ".png and cat.jpg".
Proof. reflexivity. Qed.

Example indexOf_examples :
  (indexOf "abc" "", indexOf "abc" "c", indexOf "abc" "d", indexOf "" "")
  = (0, 2, -1, 0)%Z.
Proof. reflexivity. Qed.

Example replace_dollars :
  replace_ "a$$b" "$$" (open_span +++ "$$" +++ close_span)
  = "a" +++ open_span +++ "$" +++ close_span +++ "b".
Proof. reflexivity. Qed.

(** ** Searching *)

Lemma prefix_append (n x : string) : prefix n (n +++ x) = true.
Proof.
  induction n as [| c n IH]; [destruct x; reflexivity |].
  cbn [String.append prefix]. destruct (ascii_dec c c); [exact IH | congruence].
Qed.

Lemma prefix_drop (n : string) :
  forall h, prefix n h = true -> h = n +++ drop (String.length n) h.
Proof.
  induction n as [| c n IH]; intros h H; [reflexivity |].
  destruct h as [| d h]; cbn [prefix] in H; [discriminate |].
  destruct (ascii_dec c d) as [<- |]; [| discriminate].
  cbn [String.length drop String.append]. f_equal. apply IH, H.
Qed.

Lemma search_sound (n : string) :
  forall h before after,
    search n h = Some (before, after) -> h = before +++ n +++ after.
Proof.
  induction h as [| c h IH]; intros before after H; cbn [search] in H.
  - destruct (prefix n EmptyString) eqn:Hp; [| discriminate].
    injection H as <- <-. apply (prefix_drop _ _ Hp).
  - destruct (prefix n (String c h)) eqn:Hp.
    + injection H as <- <-. apply (prefix_drop _ _ Hp).
    + destruct (search n h) as [[b a] |]; [| discriminate].
      injection H as <- <-. cbn [String.append]. f_equal. now apply IH.
Qed.

Lemma search_first (n : string) :
  forall h before after,
    search n h = Some (before, after) ->
    forall before' after',
      h = before' +++ n +++ after' ->
      String.length before <= String.length before'.
Proof.
  induction h as [| c h IH]; intros before after H before' after' Hh;
    cbn [search] in H.
  - destruct (prefix n EmptyString); [| discriminate].
    injection H as <- <-. cbn. lia.
  - destruct (prefix n (String c h)) eqn:Hp.
    + injection H as <- <-. cbn. lia.
    + destruct (search n h) as [[b a] |] eqn:Hs; [| discriminate].
      injection H as <- <-.
      destruct before' as [| c' before'].
      * cbn [String.append] in Hh. rewrite Hh, prefix_append in Hp.
        discriminate.
      * cbn [String.append] in Hh. injection Hh as -> ->.
        cbn [String.length]. apply le_n_S. eapply IH; reflexivity.
Qed.

Lemma search_complete (n : string) :
  forall before after,
    exists b a, search n (before +++ n +++ after) = Some (b, a).
Proof.
  induction before as [| c before IH]; intros after.
  - cbn [String.append]. destruct (n +++ after) eqn:Hh.
    + cbn [search]. rewrite <- Hh, prefix_append. eauto.
    + cbn [search]. rewrite <- Hh, prefix_append. eauto.
  - cbn [String.append search].
    destruct (prefix n (String c (before +++ n +++ after))); [eauto |].
    destruct (IH after) as (b & a & ->). eauto.
Qed.

Lemma append_same_length (a b x y : string) :
  a +++ x = b +++ y -> String.length a = String.length b ->
  a = b /\ x = y.
Proof.
  revert b. induction a as [| c a IH]; intros [| d b] H Hlen;
    cbn in *; try discriminate; auto.
  injection H as -> H. injection Hlen as Hlen.
  destruct (IH _ H Hlen) as [-> ->]. auto.
Qed.

(** The first occurrence is what [search] finds. *)
Lemma search_is_first (n h before after : string) :
  h = before +++ n +++ after ->
  (forall before' after',
      h = before' +++ n +++ after' ->
      String.length before <= String.length before') ->
  search n h = Some (before, after).
Proof.
  intros Hh Hfirst.
  destruct (search_complete n before after) as (b & a & Hs).
  rewrite <- Hh in Hs. rewrite Hs.
  pose proof (search_sound _ _ _ _ Hs) as Hba.
  pose proof (search_first _ _ _ _ Hs _ _ Hh) as Hle.
  pose proof (Hfirst _ _ Hba) as Hge.
  rewrite Hh in Hba.
  destruct (append_same_length _ _ _ _ Hba) as [-> Hrest]; [lia |].
  destruct (append_same_length _ _ _ _ Hrest) as [_ ->]; reflexivity.
Qed.

Lemma indexOf_found (h n : string) :
  (indexOf h n =? -1)%Z = false <-> search n h <> None.
Proof.
  unfold indexOf. destruct (search n h) as [[b a] |].
  - split; [discriminate |]. intros _. apply Z.eqb_neq. lia.
  - split; [discriminate | congruence].
Qed.

(** ** Replacement templates *)

Lemma expand_plain (matched before after : string) :
  forall template,
    no_dollar template = true ->
    expand matched before after template = template.
Proof.
  induction template as [| c rest IH]; intros H; [reflexivity |].
  cbn [no_dollar] in H. apply andb_true_iff in H as [Hc Hrest].
  cbn [expand]. apply negb_true_iff in Hc. rewrite Hc.
  now rewrite IH.
Qed.

Lemma no_dollar_append (a b : string) :
  no_dollar (a +++ b) = no_dollar a && no_dollar b.
Proof.
  induction a as [| c a IH]; [reflexivity |].
  cbn [String.append no_dollar]. now rewrite IH, andb_assoc.
Qed.

Lemma template_plain (s : string) :
  no_dollar s = true -> no_dollar (open_span +++ s +++ close_span) = true.
Proof.
  intros H. rewrite !no_dollar_append, H. reflexivity.
Qed.

(** ** The highlight *)

Lemma append_assoc (a b c : string) : (a +++ b) +++ c = a +++ b +++ c.
Proof.
  induction a as [| x a IH]; [reflexivity |].
  cbn [String.append]. now rewrite IH.
Qed.

Lemma highlighted_match (p : props) (t : highlight_target)
      (s before after : string) :
  highlight p = Some {| target := Some t; text := Some s |} ->
  no_dollar s = true ->
  field t p = before +++ s +++ after ->
  (forall before' after',
      field t p = before' +++ s +++ after' ->
      String.length before <= String.length before') ->
  highlighted p
  = with_field t (before +++ open_span +++ s +++ close_span +++ after) p.
Proof.
  intros Hh Hplain Hfield Hfirst.
  pose proof (search_is_first s (field t p) before after Hfield Hfirst) as Hs.
  unfold highlighted. rewrite Hh. cbn [target text].
  assert (Hfound : (indexOf (field t p) s =? -1)%Z = false)
    by (apply indexOf_found; congruence).
  rewrite Hfound. cbn [negb]. unfold replace_. rewrite Hs.
  rewrite expand_plain by (apply template_plain, Hplain).
  now rewrite !append_assoc.
Qed.

(** X14: when the search text holds no dollar sign and occurs in the
    target field, the memoised props differ from the props in that field
    only, where the first occurrence of the text, and no other, is
    wrapped in a [span] of class [highlight]; what precedes and what
    follows it is kept as it was. *)
Theorem highlight_marks_first_occurrence
        (p : props) (t : highlight_target) (s before after : string) :
  highlight p = Some {| target := Some t; text := Some s |} ->
  no_dollar s = true ->
  field t p = before +++ s +++ after ->
  (forall before' after',
      field t p = before' +++ s +++ after' ->
      String.length before <= String.length before') ->
  highlighted p
  = with_field t (before +++ open_span +++ s +++ close_span +++ after) p.
Proof.
  exact (highlighted_match p t s before after).
Qed.

Lemma highlight_marks_first_occurrence_witness :
  highlighted sample
  = with_field OnName
               (open_span +++ "cat" +++ close_span +++ ".png and cat.jpg")
               sample.
Proof.
  apply (highlight_marks_first_occurrence sample OnName "cat" ""
                                          ".png and cat.jpg").
  - reflexivity.
  - reflexivity.
  - reflexivity.
  - intros before' after' _. cbn. lia.
Defined.

(** X15: without a highlight, without a target, or when the search text
    does not occur in the target field, the memoised props are the props,
    unchanged. *)
Theorem highlight_without_match_changes_nothing (p : props) :
  (highlight p = None -> highlighted p = p)
  /\ (forall h, highlight p = Some h -> target h = None -> highlighted p = p)
  /\ (forall t s,
         highlight p = Some {| target := Some t; text := Some s |} ->
         (forall before after, field t p <> before +++ s +++ after) ->
         highlighted p = p).
Proof.
  unfold highlighted. repeat split.
  - intros ->. reflexivity.
  - intros h -> ->. reflexivity.
  - intros t s -> Habsent. cbn [target text].
    destruct (search s (field t p)) as [[b a] |] eqn:Hs.
    + exfalso. apply (Habsent b a), search_sound, Hs.
    + unfold indexOf. rewrite Hs. reflexivity.
Qed.

Lemma highlight_without_match_changes_nothing_witness :
  highlighted sample_absent = sample_absent.
Proof.
  refine (proj2 (proj2 (highlight_without_match_changes_nothing sample_absent))
                OnName "cat" eq_refl _).
  intros before after H. cbn [field sample_absent name] in H.
  apply (f_equal (search "cat")) in H.
  destruct (search_complete "cat" before after) as (b & a & Hs).
  rewrite Hs in H. discriminate.
Defined.

Lemma search_empty (h : string) : search "" h = Some ("", h).
Proof. destruct h; reflexivity. Qed.

(** X16: a highlight with a target and an empty search text, or none,
    counts as a match at the start: an empty [span] is put in front of
    the target field. *)
Theorem highlight_of_empty_text
        (p : props) (h : highlight_props) (t : highlight_target) :
  highlight p = Some h ->
  target h = Some t ->
  text h = None \/ text h = Some "" ->
  highlighted p = with_field t (open_span +++ close_span +++ field t p) p.
Proof.
  intros Hh Ht Htext. unfold highlighted. rewrite Hh, Ht.
  assert (Hpick : match h with
                  | {| text := Some s |} => s
                  | _ => ""
                  end = "")
    by (destruct h as [t0 [s |]]; cbn [text] in Htext;
        destruct Htext as [H | H]; congruence).
  rewrite Hpick. unfold indexOf, replace_. rewrite search_empty.
  reflexivity.
Qed.

Lemma highlight_of_empty_text_witness :
  highlighted (sample_on_cid None)
  = with_field OnCid (open_span +++ close_span +++ "bafybeigdyrzt")
               (sample_on_cid None).
Proof.
  apply (highlight_of_empty_text
           (sample_on_cid None) {| target := Some OnCid; text := None |} OnCid);
    auto.
Defined.

(** X17: the copy icon copies the memoised [cid], markup included: when
    the highlight is on the cid and the search text (without a dollar
    sign) occurs in it, what goes to the clipboard is the cid with the
    [span] in it, which is not the cid. *)
Theorem copy_takes_the_markup_along
        (p : props) (s before after : string) :
  highlight p = Some {| target := Some OnCid; text := Some s |} ->
  no_dollar s = true ->
  cid p = before +++ s +++ after ->
  (forall before' after',
      cid p = before' +++ s +++ after' ->
      String.length before <= String.length before') ->
  copied p = before +++ open_span +++ s +++ close_span +++ after
  /\ copied p <> cid p.
Proof.
  intros Hh Hplain Hcid Hfirst. unfold copied.
  rewrite (highlighted_match p OnCid s before after Hh Hplain Hcid Hfirst).
  cbn [with_field cid]. split; [reflexivity |].
  rewrite Hcid. intros H. apply (f_equal String.length) in H.
  rewrite !length_append in H. cbn in H. lia.
Qed.

Lemma copy_takes_the_markup_along_witness :
  copied (sample_on_cid (Some "bafy"))
  = open_span +++ "bafy" +++ close_span +++ "beigdyrzt"
  /\ copied (sample_on_cid (Some "bafy")) <> "bafybeigdyrzt".
Proof.
  apply (copy_takes_the_markup_along
           (sample_on_cid (Some "bafy")) "bafy" "" "beigdyrzt").
  - reflexivity.
  - reflexivity.
  - reflexivity.
  - intros before' after' _. cbn. lia.
Defined.

(** ** The status tooltip *)

Lemma uint_plain (d : Decimal.uint) :
  no_dollar (NilEmpty.string_of_uint d) = true.
Proof.
  induction d; cbn [NilEmpty.string_of_uint no_dollar]; auto.
Qed.

Lemma pins_text_plain (n : option Z) : no_dollar (pins_text n) = true.
Proof.
  destruct n as [z |]; [| reflexivity].
  unfold pins_text, number_to_string, NilZero.string_of_int,
    NilZero.string_of_uint.
  destruct (Z.to_int z) as [d | d]; destruct d;
    cbn [NilEmpty.string_of_uint no_dollar]; rewrite ?uint_plain; reflexivity.
Qed.

Lemma pins_text_not_empty (n : option Z) : pins_text n <> "".
Proof.
  destruct n as [z |]; [| discriminate].
  unfold pins_text, number_to_string, NilZero.string_of_int,
    NilZero.string_of_uint.
  destruct (Z.to_int z) as [d | d]; destruct d; discriminate.
Qed.

Lemma append_empty (a b : string) : a +++ b = "" -> a = "" /\ b = "".
Proof.
  destruct a; cbn; [auto | discriminate].
Qed.

(** Replacing a non-empty pattern by a non-empty plain text does not
    change whether the string is empty. *)
Lemma replace_empty (h needle template : string) :
  needle <> "" -> template <> "" -> no_dollar template = true ->
  (replace_ h needle template =? "") = (h =? "").
Proof.
  intros Hneedle Htemplate Hplain. unfold replace_.
  destruct (search needle h) as [[b a] |] eqn:Hs; [| reflexivity].
  rewrite expand_plain by exact Hplain.
  apply search_sound in Hs.
  transitivity false.
  - apply String.eqb_neq. intros H.
    apply append_empty in H as [_ H]. apply append_empty in H as [H _].
    contradiction.
  - symmetry. apply String.eqb_neq. intros H. rewrite H in Hs.
    symmetry in Hs.
    apply append_empty in Hs as [_ Hs]. apply append_empty in Hs as [Hs _].
    contradiction.
Qed.

(** X18: the tooltip is the message of the status for the four statuses
    of [PinStatus]; for [Pinned] the first occurrence of the placeholder
    in the message, and only the first, gives way to the number of pins
    ("undefined" when there is none).  For any other status the lookup
    falls through to what objects inherit: a status named like a
    property of [Object.prototype] finds it, any other finds nothing. *)
Theorem statusTooltip_cases
        (messages : tooltip_messages) (n : option Z) (status : string) :
  (status = QUEUING ->
   statusTooltip messages n status = Own (queuing messages))
  /\ (status = PIN_QUEUED ->
      statusTooltip messages n status = Own (pin_queued messages))
  /\ (status = PINNING ->
      statusTooltip messages n status = Own (pinning messages))
  /\ (status = PINNED ->
      forall before after,
        pinned messages = before +++ "*numberOfPins*" +++ after ->
        (forall before' after',
            pinned messages = before' +++ "*numberOfPins*" +++ after' ->
            String.length before <= String.length before') ->
        statusTooltip messages n status
        = Own (before +++ pins_text n +++ after))
  /\ (status = PINNED ->
      (forall before after,
          pinned messages <> before +++ "*numberOfPins*" +++ after) ->
      statusTooltip messages n status = Own (pinned messages))
  /\ (~ In status [QUEUING; PIN_QUEUED; PINNING; PINNED] ->
      In status object_prototype ->
      statusTooltip messages n status = Inherited)
  /\ (~ In status [QUEUING; PIN_QUEUED; PINNING; PINNED] ->
      ~ In status object_prototype ->
      statusTooltip messages n status = Missing).
Proof.
  unfold statusTooltip, lookup.
  split; [intros ->; reflexivity |].
  split; [intros ->; reflexivity |].
  split; [intros ->; reflexivity |].
  split; [| split; [| split]].
  - intros -> before after Hm Hfirst. cbn [own String.eqb Ascii.eqb Bool.eqb].
    unfold replace_.
    rewrite (search_is_first "*numberOfPins*" _ before after Hm Hfirst).
    now rewrite expand_plain by apply pins_text_plain.
  - intros -> Habsent. cbn [own String.eqb Ascii.eqb Bool.eqb].
    unfold replace_.
    destruct (search "*numberOfPins*" (pinned messages)) as [[b a] |] eqn:Hs;
      [| reflexivity].
    exfalso. apply (Habsent b a), search_sound, Hs.
  - intros Hnot Hin. cbn [own].
    assert (Hq : (QUEUING =? status) = false)
      by (apply String.eqb_neq; intros <-; apply Hnot; cbn; auto).
    assert (Hpq : (PIN_QUEUED =? status) = false)
      by (apply String.eqb_neq; intros <-; apply Hnot; cbn; auto).
    assert (Hpg : (PINNING =? status) = false)
      by (apply String.eqb_neq; intros <-; apply Hnot; cbn; auto).
    assert (Hpd : (PINNED =? status) = false)
      by (apply String.eqb_neq; intros <-; apply Hnot; cbn; auto).
    rewrite Hq, Hpq, Hpg, Hpd.
    assert (Hex : existsb (String.eqb status) object_prototype = true)
      by (apply existsb_exists; exists status; split;
          [exact Hin | apply String.eqb_refl]).
    now rewrite Hex.
  - intros Hnot Hout. cbn [own].
    assert (Hq : (QUEUING =? status) = false)
      by (apply String.eqb_neq; intros <-; apply Hnot; cbn; auto).
    assert (Hpq : (PIN_QUEUED =? status) = false)
      by (apply String.eqb_neq; intros <-; apply Hnot; cbn; auto).
    assert (Hpg : (PINNING =? status) = false)
      by (apply String.eqb_neq; intros <-; apply Hnot; cbn; auto).
    assert (Hpd : (PINNED =? status) = false)
      by (apply String.eqb_neq; intros <-; apply Hnot; cbn; auto).
    rewrite Hq, Hpq, Hpg, Hpd.
    destruct (existsb (String.eqb status) object_prototype) eqn:Hex;
      [| reflexivity].
    apply existsb_exists in Hex as (x & Hin & Heq).
    apply String.eqb_eq in Heq. subst x. contradiction.
Qed.

Lemma statusTooltip_cases_witness :
  statusTooltip sample_messages (Some 3%Z) "Pinned"
  = Own "Pinned on 3 nodes"
  /\ statusTooltip sample_messages None "constructor" = Inherited.
Proof.
  pose proof (statusTooltip_cases sample_messages (Some 3%Z) "Pinned")
    as (_ & _ & _ & Hpinned & _).
  pose proof (statusTooltip_cases sample_messages None "constructor")
    as (_ & _ & _ & _ & _ & Hinherited & _).
  split.
  - apply (Hpinned eq_refl "Pinned on " " nodes" eq_refl).
    intros before' after' H. cbn [pinned sample_messages] in H.
    destruct before' as [| c1 [| c2 [| c3 [| c4 [| c5 [| c6 [| c7 [| c8 [| c9
      [| c10 rest]]]]]]]]]]; cbn in H |- *; try discriminate; lia.
  - apply Hinherited; cbn; intuition discriminate.
Defined.

(** X19: the number of pins never reaches the row.  The [Info] beside
    the status is the same whatever [numberOfPins] is, and on a row that
    is not a header its content is the message for [Pinned] as it is
    written, placeholder included, whatever the status. *)
Theorem status_info_ignores_numberOfPins
        (messages : tooltip_messages) (p : props) (n n' : option Z) :
  status_info messages (with_pins n p) = status_info messages (with_pins n' p)
  /\ (forall i,
         isHeader p = false ->
         status_info messages p = Some i ->
         i = {| icon := InfoBIcon; content := pinned messages |}).
Proof.
  split.
  - unfold status_info. cbn [with_pins isHeader numberOfPins FileRowItem.status].
    destruct (isHeader p); [reflexivity |].
    assert (Hsame :
              truthy_lookup (statusTooltip messages n (FileRowItem.status p))
              = truthy_lookup (statusTooltip messages n'
                                             (FileRowItem.status p))).
    { unfold statusTooltip, lookup. cbn [own].
      destruct (QUEUING =? FileRowItem.status p); [reflexivity |].
      destruct (PIN_QUEUED =? FileRowItem.status p); [reflexivity |].
      destruct (PINNING =? FileRowItem.status p); [reflexivity |].
      destruct (PINNED =? FileRowItem.status p); [| reflexivity].
      cbn [truthy_lookup].
      rewrite !replace_empty;
        auto using pins_text_plain, pins_text_not_empty; discriminate. }
    now rewrite Hsame.
  - intros i Hrow. unfold status_info. rewrite Hrow.
    destruct (truthy_lookup _); [| discriminate].
    now intros [= <-].
Qed.

End FileRowItemFacts.
